(** * Kickoff: the task database (TaskDatabase.h / TaskDatabase.cpp)

    A shallow embedding of the in-memory task store of the Kickoff
    scheduler, of its binary serializers and of the scoring loop that
    picks a pending task for a worker, followed by the properties
    established about them.

    Conventions of the embedding
    - [TaskPtr] ([std::shared_ptr<Task>]) is the address of a [Task] object.
      The objects live in a store ([heap]); the database only holds
      addresses, so a change made through one handle is seen through all.
      An address identifies one object for the whole run (addresses of
      released objects are not handed out again).
    - [std::time(nullptr)] is read once per database call and passed as [now].
    - [int] counters are integers in [Z] (signed overflow is undefined in
      C++ and lies outside the model); the [uint64_t] counter wraps.
    - [float] is IEEE binary32, through the Standard Library's
      [SpecFloat] with [prec = 24] and [emax = 128]. *)

From Stdlib Require Import ZArith NArith List Bool Lia.
From Stdlib Require Import Floats.SpecFloat.
From Stdlib Require Strings.Byte.
From Stdlib Require DecimalString.
From stdpp Require Import gmap strings list fin_maps sorting.

Local Open Scope Z_scope.

(* ================================================================== *)
(** * Data model (TaskDatabase.h) *)
(* ================================================================== *)

(** [typedef uint64_t TaskID;] *)
Abbreviation TaskID := N (only parsing).
(** [typedef std::shared_ptr<Task> TaskPtr;]  a non-null handle; the null
    handle [TaskPtr()] is [None] in an [option TaskPtr]. *)
Abbreviation TaskPtr := N (only parsing).
(** [std::time_t] *)
Abbreviation time_t := Z (only parsing).

(** [struct TaskSchedule].  [workerUsage_FixedPoint] is declared in the
    header; no code in TaskDatabase.cpp reads or writes it. *)
Record TaskSchedule := mkTaskSchedule {
  requiredResources : list string;
  optionalResources : list string;
  workerUsage_FixedPoint : Z
}.

(** [enum class TaskState : uint8_t { Pending, Running, Canceling }] *)
Inductive TaskState := Pending | Running | Canceling.

(** [struct TaskRunStatus] *)
Record TaskRunStatus := mkTaskRunStatus {
  wasCanceled : bool;
  startTime : time_t;
  heartbeatTime : time_t
}.

(** [struct TaskStatus]; [Optional<TaskRunStatus>] is an [option]. *)
Record TaskStatus := mkTaskStatus {
  createTime : time_t;
  runStatus : option TaskRunStatus
}.

(** [struct TaskCreateInfo], with the fields TaskDatabase.cpp uses
    ([command], [schedule]). *)
Record TaskCreateInfo := mkTaskCreateInfo {
  command : string;
  schedule : TaskSchedule
}.

(** [class Task] *)
Record Task := mkTask {
  m_id : TaskID;
  m_command : string;
  m_schedule : TaskSchedule;
  m_status : TaskStatus
}.

(** [struct TaskStats]; [numFinished] is the [uint64_t] one. *)
Record TaskStats := mkTaskStats {
  numPending : Z;
  numRunning : Z;
  numCanceling : Z;
  numFinished : Z
}.

(** [class TaskDatabase].  TaskDatabase.cpp works on [m_allTasksByID]
    (a [std::map<TaskID, TaskPtr>], the header's [TasksByID]) and on
    [m_pendingTasks], a set of handles with [insert], [erase] by value and
    range-for: a [std::set<TaskPtr>], iterated by ascending address. *)
Record TaskDatabase := mkTaskDatabase {
  m_allTasksByID : gmap N N;
  m_pendingTasks : gset N;
  m_stats : TaskStats
}.

(** What an observer of the process sees besides the return values. *)
Inductive Event :=
  | EvWarning            (* printWarning(...) in getUnusedTaskID *)
  | EvMarkTaskFinished (id : TaskID).   (* one call of markTaskFinished *)

(** The store of [Task] objects, the database, and the observations so far. *)
Record World := mkWorld {
  heap : gmap N Task;
  db : TaskDatabase;
  trace : list Event
}.

#[global] Instance TaskState_eq_dec : EqDecision TaskState.
Proof. solve_decision. Defined.

Definition TaskState_to_nat (s : TaskState) : nat :=
  match s with Pending => 0 | Running => 1 | Canceling => 2 end%nat.

Definition TaskState_of_nat (n : nat) : option TaskState :=
  match n with
  | O => Some Pending | S O => Some Running | S (S O) => Some Canceling
  | _ => None
  end.

#[global] Instance TaskState_countable : Countable TaskState.
Proof.
  apply (inj_countable TaskState_to_nat TaskState_of_nat).
  intros []; reflexivity.
Defined.

Definition emptySchedule : TaskSchedule := mkTaskSchedule [] [] 0.

#[global] Instance Task_inhabited : Inhabited Task :=
  populate (mkTask 0%N EmptyString emptySchedule (mkTaskStatus 0 None)).

(** [TaskStats::TaskStats()] *)
Definition TaskStats_init : TaskStats := mkTaskStats 0 0 0 0.

(** A server starts with an empty database. *)
Definition World_init : World :=
  mkWorld ∅ (mkTaskDatabase ∅ ∅ TaskStats_init) [].

(** [*task]: the object a handle refers to. *)
Definition deref (w : World) (p : TaskPtr) : Task := heap w !!! p.

Definition uint64_modulus : Z := 2 ^ 64.

(* ================================================================== *)
(** * Task methods *)
(* ================================================================== *)

(** [Task::Task(TaskID id, const TaskCreateInfo& startInfo)] *)
Definition Task_new (id : TaskID) (startInfo : TaskCreateInfo) (now : time_t) : Task :=
  mkTask id (command startInfo) (schedule startInfo) (mkTaskStatus now None).

(** [void Task::markStarted()] *)
Definition Task_markStarted (now : time_t) (t : Task) : Task :=
  match runStatus (m_status t) with
  | None =>
      mkTask (m_id t) (m_command t) (m_schedule t)
        (mkTaskStatus (createTime (m_status t))
           (Some (mkTaskRunStatus false now now)))
  | Some _ => t
  end.

(** [bool Task::markShouldCancel()] *)
Definition Task_markShouldCancel (t : Task) : bool * Task :=
  match runStatus (m_status t) with
  | Some rs =>
      (true,
       mkTask (m_id t) (m_command t) (m_schedule t)
         (mkTaskStatus (createTime (m_status t))
            (Some (mkTaskRunStatus true (startTime rs) (heartbeatTime rs)))))
  | None => (false, t)
  end.

(** [void Task::heartbeat()] *)
Definition Task_heartbeat (now : time_t) (t : Task) : Task :=
  match runStatus (m_status t) with
  | Some rs =>
      mkTask (m_id t) (m_command t) (m_schedule t)
        (mkTaskStatus (createTime (m_status t))
           (Some (mkTaskRunStatus (wasCanceled rs) (startTime rs) now)))
  | None => t
  end.

(** [TaskState TaskStatus::getState() const] *)
Definition getState (st : TaskStatus) : TaskState :=
  match runStatus st with
  | Some rs => if wasCanceled rs then Canceling else Running
  | None => Pending
  end.

(* ================================================================== *)
(** * TaskDatabase: queries *)
(* ================================================================== *)

(** Writing an object through a handle. *)
Definition store (p : TaskPtr) (t : Task) (w : World) : World :=
  mkWorld (<[p := t]> (heap w)) (db w) (trace w).

(** [TaskPtr TaskDatabase::getTaskByID(TaskID id) const] *)
Definition getTaskByID (w : World) (id : TaskID) : option TaskPtr :=
  m_allTasksByID (db w) !! id.

Definition key_le (a b : N * N) : Prop := (a.1 ≤ b.1)%N.

#[global] Instance key_le_dec : RelDecision key_le.
Proof. intros a b. unfold key_le. apply _. Defined.

(** The entries of a [std::map<TaskID, TaskPtr>] as a range-for visits
    them: by ascending key. *)
Definition entries (m : gmap N N) : list (N * N) :=
  merge_sort key_le (map_to_list m).

(** The elements of a [std::set<TaskPtr>] as a range-for visits them. *)
Definition members (s : gset N) : list N :=
  merge_sort N.le (elements s).

(** [std::vector<TaskPtr> TaskDatabase::getTasksByStates(const std::set<TaskState>& states) const] *)
Definition getTasksByStates (w : World) (states : gset TaskState) : list N :=
  filter (λ task, getState (m_status (deref w task)) ∈ states)
         (map snd (entries (m_allTasksByID (db w)))).

(** [int TaskDatabase::getTotalTaskCount() const]; the cast of the size to
    [int] is exact below 2^31 tasks. *)
Definition getTotalTaskCount (w : World) : Z :=
  Z.of_nat (size (m_allTasksByID (db w))).

(* ================================================================== *)
(** * Single-precision arithmetic of the scoring loop *)
(* ================================================================== *)

Abbreviation float := spec_float (only parsing).

Definition float_prec : Z := 24.
Definition float_emax : Z := 128.

(** [float(n)] for an integer [n]: rounded to the nearest binary32. *)
Definition float_of_Z (n : Z) : float :=
  binary_normalize float_prec float_emax n 0 false.

(** [a / b] on [float]. *)
Definition float_div (a b : float) : float := SFdiv float_prec float_emax a b.

(** [a > b] and [a >= b] on [float]. *)
Definition float_gt (a b : float) : bool := SFltb b a.
Definition float_ge (a b : float) : bool := SFleb b a.

(** The literals [-1.0f], [0.0f] and [0.999f]. *)
Definition float_minus_one : float := S754_finite true 8388608 (-23).
Definition float_zero : float := S754_zero false.
Definition float_0_999 : float := S754_finite false 16760439 (-24).

(* ================================================================== *)
(** * TaskDatabase: ID allocation *)
(* ================================================================== *)

(** [fastRand64()] mixes [clock()] and [rand()]; the values it returns on
    successive calls are an input of the model ([samples]). *)

(** How a run of [getUnusedTaskID] over the supplied samples ends. *)
Inductive IdSearch :=
  | IdFound (id : TaskID) (warnings : nat)
      (* [return randID] *)
  | IdFatal (warnings : nat)
      (* [fail(...)] was called *)
  | IdSearching (sanityCount : Z) (warnings : nat).
      (* still inside the [while]: every supplied sample collided *)

(** The [while (getTaskByID(randID))] loop of [getUnusedTaskID]. *)
Fixpoint getUnusedTaskID_loop (all : gmap N N) (randID : TaskID)
    (sanityCount : Z) (warnings : nat) (samples : list N) : IdSearch :=
  match all !! randID with
  | None => IdFound randID warnings
  | Some _ =>
      match samples with
      | [] => IdSearching sanityCount warnings
      | r :: samples' =>
          let sanityCount := sanityCount + 1 in
          if 10 <? sanityCount then
            getUnusedTaskID_loop all r sanityCount (S warnings) samples'
          else if 1000 <? sanityCount then
            IdFatal warnings
          else
            getUnusedTaskID_loop all r sanityCount warnings samples'
      end
  end.

(** [TaskID TaskDatabase::getUnusedTaskID() const] *)
Definition getUnusedTaskID (w : World) (samples : list N) : IdSearch :=
  match samples with
  | [] => IdSearching 0 0
  | randID :: samples' =>
      getUnusedTaskID_loop (m_allTasksByID (db w)) randID 0 0 samples'
  end.

(* ================================================================== *)
(** * TaskDatabase: mutations *)
(* ================================================================== *)

Definition set_stats (st : TaskStats) (d : TaskDatabase) : TaskDatabase :=
  mkTaskDatabase (m_allTasksByID d) (m_pendingTasks d) st.

(** How a call of [createTask] ends. *)
Inductive CreateResult :=
  | Created (task : TaskPtr) (w : World)
  | CreateFatal (w : World)
  | CreateSearching.

(** [TaskPtr TaskDatabase::createTask(const TaskCreateInfo& info)].
    [addr] is the address [std::make_shared<Task>] returns. *)
Definition createTask (info : TaskCreateInfo) (now : time_t) (addr : TaskPtr)
    (samples : list N) (w : World) : CreateResult :=
  match getUnusedTaskID w samples with
  | IdFound id warnings =>
      let st := m_stats (db w) in
      Created addr
        (mkWorld
           (<[addr := Task_new id info now]> (heap w))
           (mkTaskDatabase
              (<[id := addr]> (m_allTasksByID (db w)))
              ({[addr]} ∪ m_pendingTasks (db w))
              (mkTaskStats (numPending st + 1) (numRunning st)
                 (numCanceling st) (numFinished st)))
           (trace w ++ replicate warnings EvWarning))
  | IdFatal warnings =>
      CreateFatal (mkWorld (heap w) (db w) (trace w ++ replicate warnings EvWarning))
  | IdSearching _ _ => CreateSearching
  end.

(** The test on [requiredResources] in [takeTaskToRun]. *)
Definition matchReq (haveResources : gset string) (schedule : TaskSchedule) : bool :=
  forallb (λ res, bool_decide (res ∈ haveResources)) (requiredResources schedule).

(** [matchCount] after the loop over [optionalResources]. *)
Definition matchCount (haveResources : gset string) (schedule : TaskSchedule) : Z :=
  Z.of_nat (length (filter (λ res, res ∈ haveResources) (optionalResources schedule))).

(** The [score] of an eligible task. *)
Definition score (haveResources : gset string) (schedule : TaskSchedule) : float :=
  if (0 <? length (optionalResources schedule))%nat then
    float_div (float_of_Z (matchCount haveResources schedule))
              (float_of_Z (Z.of_nat (length (optionalResources schedule))))
  else float_zero.

(** The [for (const auto& task : m_pendingTasks)] loop of [takeTaskToRun]:
    the state is [(readyTask, bestScore)]; the early [break] returns. *)
Fixpoint takeTaskToRun_scan (w : World) (haveResources : gset string)
    (tasks : list N) (readyTask : option N) (bestScore : float)
    : option N * float :=
  match tasks with
  | [] => (readyTask, bestScore)
  | task :: rest =>
      let schedule := m_schedule (deref w task) in
      if matchReq haveResources schedule then
        let score := score haveResources schedule in
        if float_gt score bestScore then
          if float_ge score float_0_999 then (Some task, score)
          else takeTaskToRun_scan w haveResources rest (Some task) score
        else takeTaskToRun_scan w haveResources rest readyTask bestScore
      else takeTaskToRun_scan w haveResources rest readyTask bestScore
  end.

(** [TaskPtr TaskDatabase::takeTaskToRun(const std::set<std::string>& haveResources)] *)
Definition takeTaskToRun (haveResources : gset string) (now : time_t) (w : World)
    : option N * World :=
  let readyTask :=
    (takeTaskToRun_scan w haveResources (members (m_pendingTasks (db w)))
       None float_minus_one).1 in
  match readyTask with
  | Some task =>
      let st := m_stats (db w) in
      (Some task,
       mkWorld
         (<[task := Task_markStarted now (deref w task)]> (heap w))
         (mkTaskDatabase
            (m_allTasksByID (db w))
            (m_pendingTasks (db w) ∖ {[task]})
            (mkTaskStats (numPending st - 1) (numRunning st + 1)
               (numCanceling st) (numFinished st)))
         (trace w))
  | None => (None, w)
  end.

(** [void TaskDatabase::heartbeatTask(TaskPtr task)] *)
Definition heartbeatTask (task : TaskPtr) (now : time_t) (w : World) : World :=
  store task (Task_heartbeat now (deref w task)) w.

(** [void TaskDatabase::markTaskFinished(TaskPtr task)] *)
Definition markTaskFinished (task : TaskPtr) (w : World) : World :=
  let st := m_stats (db w) in
  let st1 :=
    match runStatus (m_status (deref w task)) with
    | Some rs =>
        if wasCanceled rs then
          mkTaskStats (numPending st) (numRunning st) (numCanceling st - 1) (numFinished st)
        else
          mkTaskStats (numPending st) (numRunning st - 1) (numCanceling st) (numFinished st)
    | None =>
        mkTaskStats (numPending st - 1) (numRunning st) (numCanceling st) (numFinished st)
    end in
  let st2 :=
    mkTaskStats (numPending st1) (numRunning st1) (numCanceling st1)
      ((numFinished st1 + 1) mod uint64_modulus) in
  mkWorld (heap w)
    (mkTaskDatabase
       (delete (m_id (deref w task)) (m_allTasksByID (db w)))
       (m_pendingTasks (db w) ∖ {[task]})
       st2)
    (trace w ++ [EvMarkTaskFinished (m_id (deref w task))]).

(** [void TaskDatabase::markTaskShouldCancel(TaskPtr task)] *)
Definition markTaskShouldCancel (task : TaskPtr) (w : World) : World :=
  let '(ok, t') := Task_markShouldCancel (deref w task) in
  if ok then
    let st := m_stats (db w) in
    mkWorld (<[task := t']> (heap w))
      (set_stats
         (mkTaskStats (numPending st) (numRunning st - 1) (numCanceling st + 1)
            (numFinished st))
         (db w))
      (trace w)
  else markTaskFinished task w.

(** [bool TaskDatabase::cleanupIfZombieTask(TaskPtr task, std::time_t heartbeatTimeoutSeconds)] *)
Definition cleanupIfZombieTask (task : TaskPtr) (heartbeatTimeoutSeconds now : time_t)
    (w : World) : bool * World :=
  let died :=
    match runStatus (m_status (deref w task)) with
    | Some rs => heartbeatTimeoutSeconds <=? now - heartbeatTime rs
    | None => false
    end in
  if died then (true, markTaskFinished task w) else (false, w).

(** How a call of [cleanupZombieTasks] ends.  The range-for keeps an
    iterator into [m_allTasksByID]; [std::map::erase] invalidates the
    iterators to the erased element, and advancing an invalidated iterator
    has no defined behaviour.  [IteratorInvalidated w] is the state in which
    the loop is about to advance such an iterator. *)
Inductive CleanupOutcome :=
  | CleanupReturned (w : World)
  | IteratorInvalidated (w : World).

(** The [for (auto item : m_allTasksByID)] loop.  [items] are the entries in
    key order at loop entry.  The body never inserts; an entry erased by an
    earlier iteration is not reached; an iteration that erases its own entry
    leaves the loop iterator invalidated. *)
Fixpoint cleanupZombieTasks_loop (heartbeatTimeoutSeconds now : time_t)
    (items : list (N * N)) (w : World) : CleanupOutcome :=
  match items with
  | [] => CleanupReturned w
  | item :: rest =>
      match m_allTasksByID (db w) !! item.1 with
      | None => cleanupZombieTasks_loop heartbeatTimeoutSeconds now rest w
      | Some task =>
          let w' := (cleanupIfZombieTask task heartbeatTimeoutSeconds now w).2 in
          match m_allTasksByID (db w') !! item.1 with
          | Some _ => cleanupZombieTasks_loop heartbeatTimeoutSeconds now rest w'
          | None => IteratorInvalidated w'
          end
      end
  end.

(** [void TaskDatabase::cleanupZombieTasks(std::time_t heartbeatTimeoutSeconds)] *)
Definition cleanupZombieTasks (heartbeatTimeoutSeconds now : time_t) (w : World)
    : CleanupOutcome :=
  cleanupZombieTasks_loop heartbeatTimeoutSeconds now
    (entries (m_allTasksByID (db w))) w.

(* ================================================================== *)
(** * Sequences of database calls *)
(* ================================================================== *)

(** A handle is live when the database still maps the ID of its object to it. *)
Definition live (w : World) (p : TaskPtr) : Prop :=
  ∃ t, heap w !! p = Some t ∧ m_allTasksByID (db w) !! m_id t = Some p.

Definition is_live (w : World) (p : TaskPtr) : bool :=
  match heap w !! p with
  | Some t => bool_decide (m_allTasksByID (db w) !! m_id t = Some p)
  | None => false
  end.

(** One call of a public operation, with the inputs the environment
    supplies (clock reading, fresh address, PRNG samples). *)
Inductive Op :=
  | OpCreateTask (info : TaskCreateInfo) (now : time_t) (addr : TaskPtr) (samples : list N)
  | OpTakeTaskToRun (haveResources : gset string) (now : time_t)
  | OpHeartbeatTask (task : TaskPtr) (now : time_t)
  | OpMarkTaskFinished (task : TaskPtr)
  | OpMarkTaskShouldCancel (task : TaskPtr)
  | OpCleanupZombieTasks (heartbeatTimeoutSeconds now : time_t)
  | OpGetTasksByStates (states : gset TaskState).

(** The state after one call.  [None]: the call is outside the contract
    of the database (a handle that is not live, an address in use), or it
    does not return (ID search not finished, process terminated, loop
    iterator invalidated). *)
Definition exec (op : Op) (w : World) : option World :=
  match op with
  | OpCreateTask info now addr samples =>
      match heap w !! addr with
      | Some _ => None
      | None =>
          match createTask info now addr samples w with
          | Created _ w' => Some w'
          | _ => None
          end
      end
  | OpTakeTaskToRun haveResources now => Some (takeTaskToRun haveResources now w).2
  | OpHeartbeatTask task now =>
      if is_live w task then Some (heartbeatTask task now w) else None
  | OpMarkTaskFinished task =>
      if is_live w task then Some (markTaskFinished task w) else None
  | OpMarkTaskShouldCancel task =>
      if is_live w task then Some (markTaskShouldCancel task w) else None
  | OpCleanupZombieTasks T now =>
      match cleanupZombieTasks T now w with
      | CleanupReturned w' => Some w'
      | IteratorInvalidated _ => None
      end
  | OpGetTasksByStates _ => Some w
  end.

Fixpoint run (ops : list Op) (w : World) : option World :=
  match ops with
  | [] => Some w
  | op :: ops' =>
      match exec op w with
      | Some w' => run ops' w'
      | None => None
      end
  end.

(** The number of [markTaskFinished] calls in a trace. *)
Fixpoint markTaskFinished_calls (tr : list Event) : Z :=
  match tr with
  | [] => 0
  | EvMarkTaskFinished _ :: tr' => 1 + markTaskFinished_calls tr'
  | EvWarning :: tr' => markTaskFinished_calls tr'
  end.

(** The live entries whose task has a [runStatus]. *)
Definition hasRunStatus (w : World) (entry : N * N) : Prop :=
  is_Some (runStatus (m_status (deref w entry.2))).

Definition dispatchedTasks (w : World) : gmap N N :=
  filter (hasRunStatus w) (m_allTasksByID (db w)).

(** Structural consistency of store, map and pending set. *)
Record heap_ok (w : World) : Prop := mk_heap_ok {
  ok_object : ∀ id p, m_allTasksByID (db w) !! id = Some p →
                ∃ t, heap w !! p = Some t ∧ m_id t = id;
  ok_pending : ∀ p, p ∈ m_pendingTasks (db w) ↔
                ∃ t, heap w !! p = Some t
                     ∧ m_allTasksByID (db w) !! m_id t = Some p
                     ∧ runStatus (m_status t) = None
}.

(** The counters against the containers and the trace. *)
Record stats_ok (w : World) : Prop := mk_stats_ok {
  ok_numPending :
    numPending (m_stats (db w)) = Z.of_nat (size (m_pendingTasks (db w)));
  ok_total :
    numPending (m_stats (db w)) + numRunning (m_stats (db w))
      + numCanceling (m_stats (db w))
    = Z.of_nat (size (m_allTasksByID (db w)));
  ok_numFinished :
    numFinished (m_stats (db w))
    = markTaskFinished_calls (trace w) mod uint64_modulus
}.

Definition consistent (w : World) : Prop := heap_ok w ∧ stats_ok w.

(* ================================================================== *)
(** * Request handlers *)
(* ================================================================== *)

(** Modelled from the spec: the handler of the MarkShouldCancel request.
    The server source (TaskServer) is not among the sources; only its
    caller in Kickoff.cpp is.  Section 6 gives the request a [TaskID]
    and a [bool success] reply, and section 4.2 says the operation returns
    false when the task is absent: the handler looks the ID up, reports
    false without touching the database when there is no such task, and
    otherwise calls [markTaskShouldCancel] on the handle. *)
Definition handle_MarkShouldCancel (id : TaskID) (w : World) : bool * World :=
  match getTaskByID w id with
  | Some task => (true, markTaskShouldCancel task w)
  | None => (false, w)
  end.

(** Modelled from the spec: the handler of the GetTasksByStates request,
    whose source is missing as well.  Section 4.2: the listing must
    fail when the total task count exceeds a threshold, a small constant
    that is not a contract ([threshold] here); section 6: an absent reply
    means count exceeded.  Otherwise the reply is what
    [TaskDatabase::getTasksByStates] returns. *)
Definition handle_GetTasksByStates (threshold : Z) (states : gset TaskState)
    (w : World) : option (list N) :=
  if threshold <? getTotalTaskCount w then None
  else Some (getTasksByStates w states).

(* ================================================================== *)
(** * Blob codec *)
(* ================================================================== *)

Module BlobStream.

(** Modelled from the spec: [BlobStreamWriter] and [BlobStreamReader]
    (Crust/BlobStream.h is not among the sources).  Section 4.1:
    fixed-width integers little-endian in their natural width, booleans
    one byte 0 or 1, strings a [uint32] length then the raw bytes; every
    read reports success or failure, and a short read fails.  A writer is
    the blob written so far, a reader the bytes not yet read. *)
Definition Blob := list Byte.byte.

(** Modelled from the spec: the low eight bits of an integer as a byte. *)
Definition byte_of_Z (v : Z) : Byte.byte :=
  default Byte.x00 (Byte.of_N (Z.to_N (v mod 256))).

(** Modelled from the spec: the value of a byte. *)
Definition Z_of_byte (b : Byte.byte) : Z := Z.of_N (Byte.to_N b).

(** Modelled from the spec: a fixed-width integer as [n] bytes, least
    significant first. *)
Fixpoint le_bytes (n : nat) (v : Z) : list Byte.byte :=
  match n with
  | O => []
  | S n' => byte_of_Z v :: le_bytes n' (v / 256)
  end.

(** Modelled from the spec: the integer a little-endian byte string holds. *)
Fixpoint le_value (bs : list Byte.byte) : Z :=
  match bs with
  | [] => 0
  | b :: bs' => Z_of_byte b + 256 * le_value bs'
  end.

(** Modelled from the spec: reading [n] raw bytes; a short read fails. *)
Definition read_bytes (n : nat) (reader : Blob) : option (list Byte.byte * Blob) :=
  if (n <=? length reader)%nat then Some (take n reader, drop n reader)
  else None.

(** Modelled from the spec: [writer << v] for a [size_t] / [uint64_t]. *)
Definition write_uint64 (v : Z) (writer : Blob) : Blob := writer ++ le_bytes 8 v.
(** Modelled from the spec: [reader >> v] for a [size_t] / [uint64_t]. *)
Definition read_uint64 (reader : Blob) : option (Z * Blob) :=
  '(bs, reader) ← read_bytes 8 reader; Some (le_value bs, reader).

(** Modelled from the spec: [writer << v] for a [uint32_t]. *)
Definition write_uint32 (v : Z) (writer : Blob) : Blob := writer ++ le_bytes 4 v.
(** Modelled from the spec: [reader >> v] for a [uint32_t]. *)
Definition read_uint32 (reader : Blob) : option (Z * Blob) :=
  '(bs, reader) ← read_bytes 4 reader; Some (le_value bs, reader).

(** Modelled from the spec: [writer << v] for a [std::time_t], a signed
    64-bit integer written in two's complement. *)
Definition write_time (v : Z) (writer : Blob) : Blob :=
  writer ++ le_bytes 8 (v mod 2 ^ 64).
(** Modelled from the spec: [reader >> v] for a [std::time_t]. *)
Definition read_time (reader : Blob) : option (Z * Blob) :=
  '(bs, reader) ← read_bytes 8 reader;
  let u := le_value bs in
  Some (if u <? 2 ^ 63 then u else u - 2 ^ 64, reader).

(** Modelled from the spec: [writer << b] for a [bool], one byte 0 or 1. *)
Definition write_bool (b : bool) (writer : Blob) : Blob :=
  writer ++ [if b then Byte.x01 else Byte.x00].
(** Modelled from the spec: [reader >> b] for a [bool]; the spec names no
    malformed boolean, so every non-zero byte reads as true. *)
Definition read_bool (reader : Blob) : option (bool * Blob) :=
  '(bs, reader) ← read_bytes 1 reader;
  Some (negb (le_value bs =? 0), reader).

(** Modelled from the spec: [writer << s] for a string ([std::string],
    [PooledString]): a [uint32] length, then the bytes. *)
Definition write_string (s : string) (writer : Blob) : Blob :=
  write_uint32 (Z.of_nat (length (String.list_byte_of_string s))) writer
    ++ String.list_byte_of_string s.
(** Modelled from the spec: [reader >> s] for a string. *)
Definition read_string (reader : Blob) : option (string * Blob) :=
  '(len, reader) ← read_uint32 reader;
  '(bs, reader) ← read_bytes (Z.to_nat len) reader;
  Some (String.string_of_list_byte bs, reader).

End BlobStream.

(* ================================================================== *)
(** * Serializers (TaskDatabase.cpp) *)
(* ================================================================== *)

Import BlobStream.

(** The loops [for (auto& resource : ...) writer << resource;]. *)
Definition write_resources (resources : list string) (writer : Blob) : Blob :=
  fold_left (λ writer resource, write_string resource writer) resources writer.

(** The loops [for (i < count) if (!(reader >> resources[i])) return false;]
    after [resources.resize(count)]. *)
Fixpoint read_resources (count : nat) (reader : Blob) : option (list string * Blob) :=
  match count with
  | O => Some ([], reader)
  | S count' =>
      '(resource, reader) ← read_string reader;
      '(resources, reader) ← read_resources count' reader;
      Some (resource :: resources, reader)
  end.

(** [void TaskSchedule::serialize(BlobStreamWriter& writer) const] *)
Definition TaskSchedule_serialize (self : TaskSchedule) (writer : Blob) : Blob :=
  let writer := write_uint64 (Z.of_nat (length (requiredResources self))) writer in
  let writer := write_resources (requiredResources self) writer in
  let writer := write_uint64 (Z.of_nat (length (optionalResources self))) writer in
  write_resources (optionalResources self) writer.

(** [bool TaskSchedule::deserialize(BlobStreamReader& reader)].  [None] is
    the result [false]; [Some (self', reader')] is the result [true] with
    the object and the reader as the call leaves them. *)
Definition TaskSchedule_deserialize (self : TaskSchedule) (reader : Blob)
    : option (TaskSchedule * Blob) :=
  '(count, reader) ← read_uint64 reader;
  '(required, reader) ← read_resources (Z.to_nat count) reader;
  '(count, reader) ← read_uint64 reader;
  '(optional, reader) ← read_resources (Z.to_nat count) reader;
  Some (mkTaskSchedule required optional (workerUsage_FixedPoint self), reader).

(** [void TaskCreateInfo::serialize(BlobStreamWriter& writer) const] *)
Definition TaskCreateInfo_serialize (self : TaskCreateInfo) (writer : Blob) : Blob :=
  let writer := write_string (command self) writer in
  TaskSchedule_serialize (schedule self) writer.

(** [bool TaskCreateInfo::deserialize(BlobStreamReader& reader)] *)
Definition TaskCreateInfo_deserialize (self : TaskCreateInfo) (reader : Blob)
    : option (TaskCreateInfo * Blob) :=
  '(command, reader) ← read_string reader;
  '(schedule, reader) ← TaskSchedule_deserialize (schedule self) reader;
  Some (mkTaskCreateInfo command schedule, reader).

(** [void TaskRunStatus::serialize(BlobStreamWriter& writer) const] *)
Definition TaskRunStatus_serialize (self : TaskRunStatus) (writer : Blob) : Blob :=
  let writer := write_bool (wasCanceled self) writer in
  let writer := write_time (startTime self) writer in
  write_time (heartbeatTime self) writer.

(** [bool TaskRunStatus::deserialize(BlobStreamReader& reader)] *)
Definition TaskRunStatus_deserialize (reader : Blob) : option (TaskRunStatus * Blob) :=
  '(wasCanceled, reader) ← read_bool reader;
  '(startTime, reader) ← read_time reader;
  '(heartbeatTime, reader) ← read_time reader;
  Some (mkTaskRunStatus wasCanceled startTime heartbeatTime, reader).

(** [void TaskStatus::serialize(BlobStreamWriter& writer) const] *)
Definition TaskStatus_serialize (self : TaskStatus) (writer : Blob) : Blob :=
  let writer := write_time (createTime self) writer in
  match runStatus self with
  | Some runStatusPtr =>
      let writer := write_bool true writer in
      TaskRunStatus_serialize runStatusPtr writer
  | None => write_bool false writer
  end.

(** [bool TaskStatus::deserialize(BlobStreamReader& reader)] *)
Definition TaskStatus_deserialize (reader : Blob) : option (TaskStatus * Blob) :=
  '(createTime, reader) ← read_time reader;
  '(hasRunStatus, reader) ← read_bool reader;
  if hasRunStatus : bool then
    '(runStatusVal, reader) ← TaskRunStatus_deserialize reader;
    Some (mkTaskStatus createTime (Some runStatusVal), reader)
  else Some (mkTaskStatus createTime None, reader).

(** The values the C++ types and the codec can hold: a [std::vector] has
    fewer than [2^64] elements, a [std::time_t] is a signed 64-bit integer,
    and the codec gives a string length 32 bits. *)
Definition string_fits (s : string) : Prop :=
  Z.of_nat (length (String.list_byte_of_string s)) < 2 ^ 32.

Definition resources_fit (resources : list string) : Prop :=
  Z.of_nat (length resources) < 2 ^ 64 ∧ Forall string_fits resources.

Definition schedule_fits (s : TaskSchedule) : Prop :=
  resources_fit (requiredResources s) ∧ resources_fit (optionalResources s).

Definition time_fits (t : Z) : Prop := - 2 ^ 63 <= t < 2 ^ 63.

Definition status_fits (st : TaskStatus) : Prop :=
  time_fits (createTime st) ∧
  match runStatus st with
  | Some rs => time_fits (startTime rs) ∧ time_fits (heartbeatTime rs)
  | None => True
  end.

(* ================================================================== *)
(** * Notions used in the statements *)
(* ================================================================== *)

(** The state a call of [cleanupZombieTasks] ends in. *)
Definition outcome_world (o : CleanupOutcome) : World :=
  match o with CleanupReturned w => w | IteratorInvalidated w => w end.

(** The task behind [p] has been marked for cancellation. *)
Definition canceled (w : World) (p : N) : Prop :=
  ∃ t rs, heap w !! p = Some t ∧ runStatus (m_status t) = Some rs
          ∧ wasCanceled rs = true.

(** A task whose heartbeat has lapsed at time [now] for the timeout [T]. *)
Definition lapsed (w : World) (T now : Z) (p : N) : Prop :=
  ∃ rs, runStatus (m_status (deref w p)) = Some rs ∧ T <= now - heartbeatTime rs.

(** Neither NaN nor negative: the shape every score has. *)
Definition float_nonneg (x : spec_float) : Prop :=
  match x with
  | S754_zero _ => True
  | S754_finite false _ _ => True
  | S754_infinity false => True
  | _ => False
  end.

Definition float_is_nan (x : spec_float) : Prop :=
  match x with S754_nan => True | _ => False end.

(** A key whose lexicographic order is the order [SFcompare] computes. *)
Definition float_key (x : spec_float) : Z * Z * Z :=
  match x with
  | S754_infinity true => (-2, 0, 0)
  | S754_finite true m e => (-1, - e, - Z.pos m)
  | S754_zero _ => (0, 0, 0)
  | S754_nan => (0, 0, 0)
  | S754_finite false m e => (1, e, Z.pos m)
  | S754_infinity false => (2, 0, 0)
  end.

Definition key_lt (a b : Z * Z * Z) : Prop :=
  a.1.1 < b.1.1 ∨ (a.1.1 = b.1.1 ∧ (a.1.2 < b.1.2 ∨ (a.1.2 = b.1.2 ∧ a.2 < b.2))).

(** A task is eligible for a worker when the worker has every one of its
    required resources. *)
Definition eligible (w : World) (haveResources : gset string) (p : N) : Prop :=
  ∀ res, res ∈ requiredResources (m_schedule (deref w p)) → res ∈ haveResources.

(** The score [takeTaskToRun] gives an eligible task. *)
Definition task_score (w : World) (haveResources : gset string) (p : N) : spec_float :=
  score haveResources (m_schedule (deref w p)).

(** [matchCount] is an [int]: the schedules whose number of optional
    resources it can count. *)
Definition schedule_in_range (s : TaskSchedule) : Prop :=
  Z.of_nat (length (optionalResources s)) < 2 ^ 31.

(** What holds of [(readyTask, bestScore)] in [takeTaskToRun] once the
    loop has visited the tasks [seen]: nothing eligible so far, or the
    first of the best eligible tasks, below 0.999. *)
Definition scan_inv (w : World) (haveResources : gset string)
    (seen : list N) (readyTask : option N) (bestScore : spec_float) : Prop :=
  match readyTask with
  | None => bestScore = float_minus_one ∧ ∀ p, p ∈ seen → ¬ eligible w haveResources p
  | Some t =>
      ∃ pre post, seen = pre ++ t :: post ∧ eligible w haveResources t
        ∧ bestScore = task_score w haveResources t
        ∧ float_ge (task_score w haveResources t) float_0_999 = false
        ∧ (∀ p, p ∈ pre → eligible w haveResources p →
             float_gt (task_score w haveResources t) (task_score w haveResources p) = true)
        ∧ (∀ p, p ∈ post → eligible w haveResources p →
             float_gt (task_score w haveResources p) (task_score w haveResources t) = false)
  end.

(** What holds of the result of the loop over [tasks]: no task is
    eligible; or the result [t] is eligible, every eligible task before it
    has a strictly smaller score, itself below 0.999, and either [t] reached
    0.999 (the loop stopped there) or no eligible task after it has a greater
    score or reaches 0.999. *)
Definition scan_post (w : World) (haveResources : gset string)
    (tasks : list N) (readyTask : option N) (bestScore : spec_float) : Prop :=
  match readyTask with
  | None => ∀ p, p ∈ tasks → ¬ eligible w haveResources p
  | Some t =>
      ∃ pre post, tasks = pre ++ t :: post ∧ eligible w haveResources t
        ∧ bestScore = task_score w haveResources t
        ∧ (∀ p, p ∈ pre → eligible w haveResources p →
             float_gt (task_score w haveResources t) (task_score w haveResources p) = true
             ∧ float_ge (task_score w haveResources p) float_0_999 = false)
        ∧ (float_ge (task_score w haveResources t) float_0_999 = true
           ∨ ∀ p, p ∈ post → eligible w haveResources p →
               float_gt (task_score w haveResources p) (task_score w haveResources t) = false
               ∧ float_ge (task_score w haveResources p) float_0_999 = false)
  end.

(* ================================================================== *)
(** * Sample databases *)
(* ================================================================== *)

Definition info0 : TaskCreateInfo := mkTaskCreateInfo "echo hi" (mkTaskSchedule [] [] 0).

(** Two tasks; the first is dispatched and cancelled twice. *)
Definition double_cancel : list Op :=
  [ OpCreateTask info0 100 1%N [7%N];
    OpCreateTask info0 100 2%N [7%N; 8%N];
    OpTakeTaskToRun ∅ 101;
    OpMarkTaskShouldCancel 1%N;
    OpMarkTaskShouldCancel 1%N;
    OpHeartbeatTask 1%N 102;
    OpMarkTaskShouldCancel 2%N;
    OpCleanupZombieTasks 60 103 ].

Definition after_double_cancel : World :=
  default World_init (run double_cancel World_init).

(** One task, dispatched at time 101 and then cancelled. *)
Definition canceled_start : World :=
  default World_init
    (run [ OpCreateTask info0 100 1%N [7%N];
           OpTakeTaskToRun ∅ 101;
           OpMarkTaskShouldCancel 1%N ] World_init).

Definition after_cancel_ops : list Op :=
  [ OpHeartbeatTask 1%N 110;
    OpCreateTask info0 111 2%N [7%N; 9%N];
    OpTakeTaskToRun ∅ 112;
    OpMarkTaskShouldCancel 1%N;
    OpHeartbeatTask 1%N 113;
    OpGetTasksByStates {[Running]} ].

(** A dispatched task that was then marked for cancellation. *)
Definition canceling_world : World := canceled_start.

(** Task 7 dispatched at time 101, task 8 never dispatched. *)
Definition two_tasks : World :=
  default World_init
    (run [ OpCreateTask info0 100 1%N [7%N];
           OpCreateTask info0 100 2%N [8%N];
           OpTakeTaskToRun ∅ 101 ] World_init).

(** Two dispatched tasks, both silent since time 101. *)
Definition two_zombies : World :=
  default World_init
    (run [ OpCreateTask info0 100 1%N [7%N];
           OpCreateTask info0 100 2%N [8%N];
           OpTakeTaskToRun ∅ 101;
           OpTakeTaskToRun ∅ 101 ] World_init).

Definition schedule1 : TaskSchedule := mkTaskSchedule ["GPU"; "CPU"] ["XYZ123"] 7.
Definition status1 : TaskStatus := mkTaskStatus 1700000000 (Some (mkTaskRunStatus true (-5) 1700000060)).

(** Task A has 1001 optional resources, 1000 of them [x]; task B has the
    single optional resource [x]. *)
Definition infoA : TaskCreateInfo :=
  mkTaskCreateInfo "a" (mkTaskSchedule [] (replicate 1000 "x" ++ ["y"]) 0).
Definition infoB : TaskCreateInfo :=
  mkTaskCreateInfo "b" (mkTaskSchedule [] ["x"] 0).
Definition near_perfect_first : World :=
  default World_init
    (run [ OpCreateTask infoA 100 1%N [7%N]; OpCreateTask infoB 100 2%N [8%N] ]
       World_init).

(* ================================================================== *)
(** * Renderings (TaskDatabase.cpp) *)
(* ================================================================== *)

(** [std::to_string(int)]: the decimal digits, with a leading [-] for a
    negative number. *)
Definition to_string (z : Z) : string :=
  DecimalString.NilZero.string_of_int (Z.to_int z).

(** The conversion [(int)x] of a wider signed integer (two's complement). *)
Definition to_int32 (z : Z) : Z := (z + 2 ^ 31) mod 2 ^ 32 - 2 ^ 31.

(** The four [int] variables of [intervalToString], as
    [(days, hours, minutes, seconds)].  [%] and [/] truncate toward zero;
    the three remainders fit an [int] as they are. *)
Definition intervalParts (interval : Z) : Z * Z * Z * Z :=
  let seconds := Z.rem interval 60 in
  let interval := Z.quot interval 60 in
  let minutes := Z.rem interval 60 in
  let interval := Z.quot interval 60 in
  let hours := Z.rem interval 24 in
  let interval := Z.quot interval 24 in
  let days := to_int32 interval in
  (days, hours, minutes, seconds).

(** [static std::string intervalToString(time_t interval)] *)
Definition intervalToString (interval : Z) : string :=
  let '(days, hours, minutes, seconds) := intervalParts interval in
  (((if 0 <? days then to_string days +:+ "d" else EmptyString)
    +:+ (if 0 <? hours then to_string hours +:+ "h" else EmptyString))
    +:+ (if 0 <? minutes then to_string minutes +:+ "m" else EmptyString))
    +:+ (to_string seconds +:+ "s").

(** [std::string toString(TaskState state)] *)
Definition TaskState_toString (state : TaskState) : string :=
  match state with
  | Pending => "Pending"
  | Running => "Running"
  | Canceling => "Canceling"
  end.

(** [std::string TaskStatus::toString() const], at clock reading [nowTime].
    [orDefault] is what [runStatus.orDefault()] yields when the value is
    absent. *)
Definition TaskStatus_toString (orDefault : TaskRunStatus) (self : TaskStatus)
    (nowTime : Z) : string :=
  let runStatusVal := default orDefault (runStatus self) in
  match getState self with
  | Pending =>
      "Pending (so far waited " +:+ intervalToString (nowTime - createTime self) +:+ ")"
  | Running =>
      "Running (current runtime "
      +:+ intervalToString (nowTime - startTime runStatusVal)
      +:+ "; worker heartbeat "
      +:+ intervalToString (nowTime - heartbeatTime runStatusVal) +:+ ")"
  | Canceling =>
      "Canceling (current runtime "
      +:+ intervalToString (nowTime - startTime runStatusVal)
      +:+ "; worker heartbeat "
      +:+ intervalToString (nowTime - heartbeatTime runStatusVal) +:+ ")"
  end.

(** The loops [for (i < size) { str += resources[i]; if (i != size - 1)
    str += ", "; }] of [TaskSchedule::toString]. *)
Fixpoint append_resources (resources : list string) (str : string) : string :=
  match resources with
  | [] => str
  | resource :: rest =>
      let str := str +:+ resource in
      append_resources rest (match rest with [] => str | _ => str +:+ ", " end)
  end.

(** [std::string TaskSchedule::toString() const] *)
Definition TaskSchedule_toString (self : TaskSchedule) : string :=
  let str := "RequiredResources = {"%string in
  let str := append_resources (requiredResources self) str in
  let str := str +:+ "}" in
  let str := str +:+ " OptionalResources = {" in
  let str := append_resources (optionalResources self) str in
  str +:+ "}".

(* ================================================================== *)
(** * Command line (Kickoff.cpp) *)
(* ================================================================== *)

(** [struct ServerAddress] *)
Record ServerAddress := mkServerAddress {
  ip : string;
  port : Z
}.

(** How a call of [parseConnectionString] ends, with the number of calls
    of [printError] made on the way. *)
Inductive ParseOutcome :=
  | ParseReturned (addr : ServerAddress) (errors : nat)
  | ParseExited (code : Z) (errors : nat)
      (* [exit(code)] *)
  | ParseOutOfBounds (errors : nat).
      (* [parts[0]] read on an empty vector *)

Section ConnectionString.

(** [splitString] and [parseInt] come from Crust/Util.h, which is not among
    the sources; they are parameters here. *)
Variable splitString : string → string → list string.
Variable parseInt : string → Z.

(** [ServerAddress parseConnectionString(const std::string& connectionStr, int defaultPort)] *)
Definition parseConnectionString (connectionStr : string) (defaultPort : Z)
    : ParseOutcome :=
  let parts := splitString connectionStr ":" in
  if (2 <? length parts)%nat then ParseExited (-1) 1
  else
    let errors := if (length parts <? 1)%nat then 1%nat else 0%nat in
    match parts with
    | [] => ParseOutOfBounds errors
    | part0 :: _ =>
        ParseReturned
          (mkServerAddress part0
             (match parts with
              | _ :: part1 :: _ => parseInt part1
              | _ => defaultPort
              end))
          errors
    end.

End ConnectionString.

(** The process around [interruptHandler]: whether the global
    [gWorkerForInterruptHandler] is set, the number of calls of
    [TaskWorker::shutdown] made so far, and the exit code once [exit] was
    called. *)
Record Process := mkProcess {
  gWorkerForInterruptHandler : bool;
  shutdownCalls : nat;
  exitCode : option Z
}.

(** [static void interruptHandler(int sig)].  With the worker set:
    [signal(sig, SIG_IGN)], a warning, [worker->shutdown()], the global is
    cleared and the handler installed again; otherwise an error message and
    [exit(-2)]. *)
Definition interruptHandler (s : Process) : Process :=
  if gWorkerForInterruptHandler s then
    mkProcess false (S (shutdownCalls s)) (exitCode s)
  else
    mkProcess false (shutdownCalls s) (Some (-2)).

(** [n] interrupts in a row; a process that has exited handles no more. *)
Fixpoint interrupts (n : nat) (s : Process) : Process :=
  match n with
  | O => s
  | S n' =>
      match exitCode s with
      | Some _ => s
      | None => interrupts n' (interruptHandler s)
      end
  end.

(** The state [main] reaches in its [worker] branch before [worker.run()]:
    [gWorkerForInterruptHandler = &worker; signal(SIGINT, interruptHandler)]. *)
Definition worker_started : Process := mkProcess true 0 None.

(* ================================================================== *)
(** * Clock readings along a sequence of calls *)
(* ================================================================== *)

(** The clock reading a call makes, if it makes one. *)
Definition op_now (op : Op) : option Z :=
  match op with
  | OpCreateTask _ now _ _ => Some now
  | OpTakeTaskToRun _ now => Some now
  | OpHeartbeatTask _ now => Some now
  | OpCleanupZombieTasks _ now => Some now
  | OpMarkTaskFinished _ | OpMarkTaskShouldCancel _ | OpGetTasksByStates _ => None
  end.

(** The clock never goes back: every reading is at least [last], the
    reading before it. *)
Fixpoint clock_monotone (last : Z) (ops : list Op) : Prop :=
  match ops with
  | [] => True
  | op :: ops' =>
      match op_now op with
      | Some now => last <= now ∧ clock_monotone now ops'
      | None => clock_monotone last ops'
      end
  end.

(** The last clock reading of a sequence of calls that started at [last]. *)
Fixpoint last_reading (last : Z) (ops : list Op) : Z :=
  match ops with
  | [] => last
  | op :: ops' => last_reading (default last (op_now op)) ops'
  end.

(** The times of the tasks are in order and not after [last]. *)
Definition times_ordered (w : World) (last : Z) : Prop :=
  ∀ p t, heap w !! p = Some t →
    createTime (m_status t) <= last
    ∧ ∀ rs, runStatus (m_status t) = Some rs →
        createTime (m_status t) <= startTime rs
        ∧ startTime rs <= heartbeatTime rs
        ∧ heartbeatTime rs <= last.

(** What stays of a task object [t] in a later object [t']: the ID, the
    command, the schedule, the creation time, and, once the task has been
    dispatched, the fact that it has been and its start time. *)
Definition task_evolves (t t' : Task) : Prop :=
  m_id t' = m_id t
  ∧ m_command t' = m_command t
  ∧ m_schedule t' = m_schedule t
  ∧ createTime (m_status t') = createTime (m_status t)
  ∧ ∀ rs, runStatus (m_status t) = Some rs →
      ∃ rs', runStatus (m_status t') = Some rs' ∧ startTime rs' = startTime rs.

(** One pending task that requires both [GPU] and [CPU]. *)
Definition needs_gpu_cpu : World :=
  default World_init
    (run [ OpCreateTask (mkTaskCreateInfo "c" schedule1) 100 1%N [7%N] ] World_init).

(* ================================================================== *)
(** * Readers and the bytes they use *)
(* ================================================================== *)

(** A reader that succeeds has used a prefix of the input, and what comes
    after that prefix has no part in its result. *)
Definition reads_prefix {A} (read : Blob → option (A * Blob)) : Prop :=
  ∀ reader v rest, read reader = Some (v, rest) →
    ∃ used, reader = used ++ rest
            ∧ ∀ more, read (used ++ more) = Some (v, more).

(* ================================================================== *)
(** * Properties *)
(* ================================================================== *)

(* ================================================================== *)
(** * Consistency of the database is preserved by every call *)
(* ================================================================== *)

Section Consistency.

Implicit Types (w : World) (p : N) (t : Task).

Lemma deref_lookup w p t : heap w !! p = Some t → deref w p = t.
Proof. unfold deref. apply lookup_total_correct. Qed.

Lemma is_live_spec w p : is_live w p = true ↔ live w p.
Proof.
  unfold is_live, live. destruct (heap w !! p) as [t|] eqn:Hp.
  - rewrite bool_decide_eq_true. split.
    + intros H. exists t. done.
    + intros (t' & Ht' & H). by simplify_eq.
  - split; [done|]. intros (t' & Ht' & _). done.
Qed.

Lemma live_entry w id p :
  heap_ok w → m_allTasksByID (db w) !! id = Some p → live w p.
Proof.
  intros Hok Hid. destruct (ok_object w Hok id p Hid) as (t & Ht & <-).
  exists t. done.
Qed.

Lemma pending_size_remove (s : gset N) p :
  p ∈ s → Z.of_nat (size (s ∖ {[p]})) = Z.of_nat (size s) - 1.
Proof.
  intros Hp. rewrite size_difference by set_solver.
  rewrite size_singleton.
  assert (size ({[p]} : gset N) ≤ size s)%nat as Hle
    by (apply subseteq_size; set_solver).
  rewrite size_singleton in Hle. lia.
Qed.

Lemma pending_remove_absent (s : gset N) p : p ∉ s → s ∖ {[p]} = s.
Proof.
  intros Hp. apply set_eq. intros x.
  rewrite elem_of_difference, not_elem_of_singleton. naive_solver.
Qed.

Lemma World_init_consistent : consistent World_init.
Proof.
  split; constructor; simpl.
  - intros id p H. by rewrite lookup_empty in H.
  - intros p. split; [set_solver|].
    intros (t & Ht & _). by rewrite lookup_empty in Ht.
  - done.
  - done.
  - done.
Qed.

(** Rewriting an object in place, keeping its ID and whether it has a
    [runStatus]. *)
Lemma heap_ok_store w p t t' :
  heap_ok w → heap w !! p = Some t →
  m_id t' = m_id t →
  (runStatus (m_status t') = None ↔ runStatus (m_status t) = None) →
  heap_ok (store p t' w).
Proof.
  intros [Hobj Hpend] Hp Hid Hrs. constructor; simpl.
  - intros id q Hq. destruct (decide (q = p)) as [->|Hne].
    + rewrite lookup_insert_eq. exists t'. split; [done|].
      destruct (Hobj id p Hq) as (t0 & Ht0 & <-). by simplify_eq.
    + rewrite lookup_insert_ne by done. by apply Hobj.
  - intros q. rewrite Hpend. destruct (decide (q = p)) as [->|Hne].
    + rewrite lookup_insert_eq. split.
      * intros (t0 & Ht0 & Hl & Hn). simplify_eq. exists t'.
        rewrite Hid, Hrs. done.
      * intros (t0 & Ht0 & Hl & Hn). simplify_eq. exists t.
        rewrite <- Hid, <- Hrs. done.
    + rewrite lookup_insert_ne by done. done.
Qed.

Lemma heap_ok_ext w w' :
  heap w' = heap w →
  m_allTasksByID (db w') = m_allTasksByID (db w) →
  m_pendingTasks (db w') = m_pendingTasks (db w) →
  heap_ok w → heap_ok w'.
Proof.
  intros Hh Ha Hp [Hobj Hpend].
  constructor.
  - rewrite Hh, Ha. done.
  - intros q. rewrite Hp, Hh, Ha. apply Hpend.
Qed.

Lemma heartbeatTask_consistent w p now :
  consistent w → live w p → consistent (heartbeatTask p now w).
Proof.
  intros [Hh Hs] (t & Hp & Hl). unfold heartbeatTask.
  rewrite (deref_lookup w p t Hp). split.
  - apply (heap_ok_store w p t); [done..| |].
    + unfold Task_heartbeat. by destruct (runStatus (m_status t)).
    + unfold Task_heartbeat. by destruct (runStatus (m_status t)) eqn:E; simpl; rewrite ?E.
  - destruct Hs. by constructor.
Qed.

Lemma markTaskFinished_calls_app tr1 tr2 :
  markTaskFinished_calls (tr1 ++ tr2)
  = markTaskFinished_calls tr1 + markTaskFinished_calls tr2.
Proof.
  induction tr1 as [|[|id] tr1 IH]; simpl; lia.
Qed.

Lemma markTaskFinished_calls_warnings n :
  markTaskFinished_calls (replicate n EvWarning) = 0.
Proof. induction n; simpl; lia. Qed.

Lemma markTaskFinished_calls_nonneg tr : 0 <= markTaskFinished_calls tr.
Proof. induction tr as [|[|id] tr IH]; simpl; lia. Qed.

Lemma markTaskFinished_consistent w p :
  consistent w → live w p → consistent (markTaskFinished p w).
Proof.
  intros [[Hobj Hpend] [Hnp Htot Hfin]] (t & Hp & Hl).
  unfold markTaskFinished. rewrite (deref_lookup w p t Hp).
  assert (Hsz : Z.of_nat (size (delete (m_id t) (m_allTasksByID (db w))))
                = Z.of_nat (size (m_allTasksByID (db w))) - 1).
  { rewrite map_size_delete_Some by eauto.
    assert (size (m_allTasksByID (db w)) ≠ 0%nat).
    { intros H0. apply map_size_empty_inv in H0. rewrite H0 in Hl.
      by rewrite lookup_empty in Hl. }
    lia. }
  split.
  - constructor; simpl.
    + intros id q Hq. apply lookup_delete_Some in Hq as [_ Hq]. by apply Hobj.
    + intros q. rewrite elem_of_difference, Hpend, not_elem_of_singleton.
      split.
      * intros [(t0 & Ht0 & Hl0 & Hn) Hne]. exists t0. split_and!; [done| |done].
        rewrite lookup_delete_ne; [done|]. intros Heq. rewrite Heq in Hl.
        by simplify_eq.
      * intros (t0 & Ht0 & Hl0 & Hn). apply lookup_delete_Some in Hl0 as [Hne Hl0].
        split; [by exists t0|]. intros ->. by simplify_eq.
  - constructor; simpl.
    + destruct (runStatus (m_status t)) as [rs|] eqn:Hrs.
      * rewrite pending_remove_absent.
        { by destruct (wasCanceled rs). }
        rewrite Hpend. intros (t0 & Ht0 & _ & Hn). by simplify_eq.
      * simpl. rewrite pending_size_remove; [lia|].
        rewrite Hpend. by exists t.
    + rewrite Hsz.
      destruct (runStatus (m_status t)) as [rs|]; [destruct (wasCanceled rs)|];
        simpl; lia.
    + rewrite markTaskFinished_calls_app. simpl.
      assert (Hf : numFinished
                match runStatus (m_status t) with
                | Some rs =>
                    if wasCanceled rs
                    then mkTaskStats (numPending (m_stats (db w))) (numRunning (m_stats (db w)))
                           (numCanceling (m_stats (db w)) - 1) (numFinished (m_stats (db w)))
                    else mkTaskStats (numPending (m_stats (db w))) (numRunning (m_stats (db w)) - 1)
                           (numCanceling (m_stats (db w))) (numFinished (m_stats (db w)))
                | None => mkTaskStats (numPending (m_stats (db w)) - 1) (numRunning (m_stats (db w)))
                           (numCanceling (m_stats (db w))) (numFinished (m_stats (db w)))
                end = numFinished (m_stats (db w))).
      { destruct (runStatus (m_status t)) as [rs|]; [destruct (wasCanceled rs)|]; done. }
      rewrite Hf, Hfin. unfold uint64_modulus.
      rewrite Zplus_mod_idemp_l. done.
Qed.

Lemma getUnusedTaskID_loop_found all randID sanityCount warnings samples id n :
  getUnusedTaskID_loop all randID sanityCount warnings samples = IdFound id n →
  all !! id = None.
Proof.
  revert randID sanityCount warnings.
  induction samples as [|r samples IH]; intros randID sanityCount warnings; simpl.
  - destruct (all !! randID) eqn:E; [done|]. intros [= <- _]. done.
  - destruct (all !! randID) eqn:E.
    + destruct (10 <? sanityCount + 1).
      * apply IH.
      * destruct (1000 <? sanityCount + 1); [done|]. apply IH.
    + intros [= <- _]. done.
Qed.

Lemma getUnusedTaskID_found w samples id n :
  getUnusedTaskID w samples = IdFound id n →
  m_allTasksByID (db w) !! id = None.
Proof.
  unfold getUnusedTaskID. destruct samples as [|r samples]; [done|].
  apply getUnusedTaskID_loop_found.
Qed.

Lemma createTask_consistent w info now addr samples task w' :
  consistent w → heap w !! addr = None →
  createTask info now addr samples w = Created task w' →
  consistent w'.
Proof.
  intros [[Hobj Hpend] [Hnp Htot Hfin]] Hfresh. unfold createTask.
  destruct (getUnusedTaskID w samples) as [id n| |] eqn:Hid; [|done..].
  apply getUnusedTaskID_found in Hid. intros [= <- <-].
  assert (Hnotin : addr ∉ m_pendingTasks (db w)).
  { rewrite Hpend. intros (t & Ht & _). by simplify_eq. }
  split.
  - constructor; simpl.
    + intros id' q Hq. apply lookup_insert_Some in Hq as [[<- <-]|[Hne Hq]].
      * rewrite lookup_insert_eq. by eexists.
      * destruct (Hobj id' q Hq) as (t & Ht & Hi).
        rewrite lookup_insert_ne by (intros ->; by simplify_eq). by exists t.
    + intros q. rewrite elem_of_union, elem_of_singleton, Hpend.
      destruct (decide (q = addr)) as [->|Hne].
      * rewrite lookup_insert_eq. split.
        -- intros _. eexists. split; [done|]. simpl.
           by rewrite lookup_insert_eq.
        -- by left.
      * rewrite lookup_insert_ne by done. split.
        -- intros [?|(t & Ht & Hl & Hn)]; [done|]. exists t.
           split_and!; [done| |done].
           rewrite lookup_insert_ne; [done|]. intros Heq. rewrite Heq in Hid.
           by simplify_eq.
        -- intros (t & Ht & Hl & Hn). right. exists t. split_and!; [done| |done].
           apply lookup_insert_Some in Hl as [[_ ?]|[_ ?]]; done.
  - constructor; simpl.
    + rewrite size_union by set_solver. rewrite size_singleton. lia.
    + rewrite map_size_insert_None by done. lia.
    + rewrite markTaskFinished_calls_app, markTaskFinished_calls_warnings.
      by rewrite Z.add_0_r.
Qed.

Lemma members_elem_of (s : gset N) p : p ∈ members s ↔ p ∈ s.
Proof. unfold members. by rewrite merge_sort_Permutation, elem_of_elements. Qed.

Lemma entries_elem_of (m : gmap N N) id p : (id, p) ∈ entries m ↔ m !! id = Some p.
Proof. unfold entries. by rewrite merge_sort_Permutation, elem_of_map_to_list. Qed.

(** The scan only ever selects one of the tasks it visits. *)
Lemma takeTaskToRun_scan_elem_of w have tasks ready best p :
  (takeTaskToRun_scan w have tasks ready best).1 = Some p →
  p ∈ tasks ∨ ready = Some p.
Proof.
  revert ready best. induction tasks as [|task rest IH]; intros ready best; simpl.
  - by right.
  - destruct (matchReq have (m_schedule (deref w task))).
    + destruct (float_gt _ best).
      * destruct (float_ge _ float_0_999); simpl.
        -- intros [= ->]. left. by left.
        -- intros H. apply IH in H as [?|[= ->]]; left; [by right|by left].
      * intros H. apply IH in H as [?|?]; [left; by right|by right].
    + intros H. apply IH in H as [?|?]; [left; by right|by right].
Qed.

Lemma takeTaskToRun_pending w have now p w' :
  takeTaskToRun have now w = (Some p, w') → p ∈ m_pendingTasks (db w).
Proof.
  unfold takeTaskToRun.
  destruct (takeTaskToRun_scan _ _ _ _ _).1 as [q|] eqn:Hscan; [|done].
  intros [= <- _]. apply takeTaskToRun_scan_elem_of in Hscan as [H|H]; [|done].
  by apply members_elem_of.
Qed.

Lemma takeTaskToRun_consistent w have now :
  consistent w → consistent (takeTaskToRun have now w).2.
Proof.
  intros Hc. destruct (takeTaskToRun have now w) as [[p|] w'] eqn:Htake.
  - pose proof (takeTaskToRun_pending _ _ _ _ _ Htake) as Hp.
    destruct Hc as [[Hobj Hpend] [Hnp Htot Hfin]].
    unfold takeTaskToRun in Htake.
    destruct (takeTaskToRun_scan _ _ _ _ _).1 as [q|]; [|done].
    injection Htake as -> <-. simpl.
    destruct (proj1 (Hpend p) Hp) as (t & Ht & Hl & Hn).
    rewrite (deref_lookup w p t Ht).
    assert (Hst : Task_markStarted now t
                  = mkTask (m_id t) (m_command t) (m_schedule t)
                      (mkTaskStatus (createTime (m_status t))
                         (Some (mkTaskRunStatus false now now)))).
    { unfold Task_markStarted. by rewrite Hn. }
    split.
    + constructor; simpl.
      * intros id q Hq. destruct (decide (q = p)) as [->|Hne].
        -- rewrite lookup_insert_eq. eexists. split; [done|]. rewrite Hst. simpl.
           destruct (Hobj id p Hq) as (t0 & Ht0 & <-). by simplify_eq.
        -- rewrite lookup_insert_ne by done. by apply Hobj.
      * intros q. rewrite elem_of_difference, not_elem_of_singleton, Hpend.
        destruct (decide (q = p)) as [->|Hne].
        -- rewrite lookup_insert_eq. split; [by intros [_ ?]|].
           intros (t0 & [= <-] & _ & Hn0). by rewrite Hst in Hn0.
        -- rewrite lookup_insert_ne by done. naive_solver.
    + constructor; simpl.
      * rewrite pending_size_remove by done. lia.
      * lia.
      * done.
  - unfold takeTaskToRun in Htake.
    destruct (takeTaskToRun_scan _ _ _ _ _).1; [done|]. by injection Htake as <-.
Qed.

Lemma markTaskShouldCancel_consistent w p :
  consistent w → live w p → consistent (markTaskShouldCancel p w).
Proof.
  intros Hc Hlive. pose proof Hlive as (t & Hp & Hl).
  unfold markTaskShouldCancel, Task_markShouldCancel.
  pose proof (markTaskFinished_consistent w p Hc Hlive) as Hfin.
  rewrite (deref_lookup w p t Hp) in *.
  destruct (runStatus (m_status t)) as [rs|] eqn:Hrs; [|done].
  destruct Hc as [Hh [Hnp Htot Hf]]. split.
  - eapply (heap_ok_ext (store p _ w)); [done..|].
    apply (heap_ok_store w p t _ Hh Hp); [done|]. simpl. by rewrite Hrs.
  - constructor; simpl; [done|lia|done].
Qed.

Lemma cleanupIfZombieTask_consistent w p T now :
  consistent w → live w p → consistent (cleanupIfZombieTask p T now w).2.
Proof.
  intros Hc Hl. unfold cleanupIfZombieTask.
  destruct (match runStatus _ with Some _ => _ | None => _ end); simpl; [|done].
  by apply markTaskFinished_consistent.
Qed.


Lemma cleanupZombieTasks_loop_consistent T now items w :
  consistent w → consistent (outcome_world (cleanupZombieTasks_loop T now items w)).
Proof.
  revert w. induction items as [|item rest IH]; intros w Hc; simpl; [done|].
  destruct (m_allTasksByID (db w) !! item.1) as [task|] eqn:Hitem; [|by apply IH].
  assert (consistent (cleanupIfZombieTask task T now w).2) as Hc'.
  { apply cleanupIfZombieTask_consistent; [done|].
    eapply live_entry; [apply Hc|done]. }
  destruct (m_allTasksByID (db (cleanupIfZombieTask task T now w).2) !! item.1);
    [by apply IH|done].
Qed.

Lemma exec_consistent op w w' :
  consistent w → exec op w = Some w' → consistent w'.
Proof.
  intros Hc. destruct op as [info now addr samples|have now|p now|p|p|T now|states]; simpl.
  - destruct (heap w !! addr) eqn:Hfresh; [done|].
    destruct (createTask info now addr samples w) as [task w0| |] eqn:Hcr; [|done..].
    intros [= <-]. by eapply createTask_consistent.
  - intros [= <-]. by apply takeTaskToRun_consistent.
  - destruct (is_live w p) eqn:Hl; [|done]. intros [= <-].
    apply heartbeatTask_consistent; [done|by apply is_live_spec].
  - destruct (is_live w p) eqn:Hl; [|done]. intros [= <-].
    apply markTaskFinished_consistent; [done|by apply is_live_spec].
  - destruct (is_live w p) eqn:Hl; [|done]. intros [= <-].
    apply markTaskShouldCancel_consistent; [done|by apply is_live_spec].
  - unfold cleanupZombieTasks.
    pose proof (cleanupZombieTasks_loop_consistent T now
                  (entries (m_allTasksByID (db w))) w Hc) as H.
    destruct (cleanupZombieTasks_loop _ _ _ _); [|done]. by intros [= <-].
  - by intros [= <-].
Qed.

Lemma run_consistent ops w w' :
  consistent w → run ops w = Some w' → consistent w'.
Proof.
  revert w. induction ops as [|op ops IH]; intros w Hc; simpl.
  - by intros [= <-].
  - destruct (exec op w) as [w1|] eqn:Hex; [|done].
    apply IH. by eapply exec_consistent.
Qed.

End Consistency.

Section Counting.

Lemma size_map_img_inj (m : gmap N N) :
  (∀ i j x, m !! i = Some x → m !! j = Some x → i = j) →
  size (map_img m : gset N) = size m.
Proof.
  induction m as [|k x m Hk IH] using map_ind; intros Hinj.
  - by rewrite map_img_empty_L, size_empty, map_size_empty.
  - rewrite map_img_insert_notin_L by done.
    rewrite map_size_insert_None by done.
    rewrite size_union, size_singleton.
    + rewrite IH; [done|]. intros i j y Hi Hj.
      apply (Hinj i j y); rewrite lookup_insert_ne; try done.
      * intros <-. by rewrite Hk in Hi.
      * intros <-. by rewrite Hk in Hj.
    + apply disjoint_singleton_l. rewrite not_elem_of_map_img. intros i Hi.
      assert (k = i) as <-.
      { apply (Hinj k i x); [by rewrite lookup_insert_eq|].
        rewrite lookup_insert_ne; [done|]. intros <-. by rewrite Hk in Hi. }
      by rewrite Hk in Hi.
Qed.

Lemma pending_is_img w :
  heap_ok w →
  m_pendingTasks (db w)
  = map_img (filter (λ entry, ¬ hasRunStatus w entry) (m_allTasksByID (db w))).
Proof.
  intros [Hobj Hpend]. apply set_eq. intros p.
  rewrite Hpend, elem_of_map_img. split.
  - intros (t & Ht & Hl & Hn). exists (m_id t).
    apply map_lookup_filter_Some. split; [done|].
    unfold hasRunStatus. simpl. rewrite (deref_lookup w p t Ht), Hn.
    by intros [? ?].
  - intros (id & Hf). apply map_lookup_filter_Some in Hf as [Hl Hn].
    destruct (Hobj id p Hl) as (t & Ht & <-). exists t. split_and!; [done..|].
    unfold hasRunStatus in Hn. simpl in Hn. rewrite (deref_lookup w p t Ht) in Hn.
    destruct (runStatus (m_status t)); [|done]. destruct Hn. by eexists.
Qed.

(** Every live task is either pending or dispatched. *)
Lemma live_partition w :
  heap_ok w →
  (size (m_allTasksByID (db w))
   = size (dispatchedTasks w) + size (m_pendingTasks (db w)))%nat.
Proof.
  intros Hok. rewrite (pending_is_img w Hok).
  rewrite size_map_img_inj.
  - unfold dispatchedTasks.
    rewrite <- map_size_disj_union by apply map_disjoint_filter_complement.
    by rewrite map_filter_union_complement.
  - intros i j p Hi Hj.
    apply map_lookup_filter_Some in Hi as [Hi _].
    apply map_lookup_filter_Some in Hj as [Hj _].
    destruct Hok as [Hobj _].
    destruct (Hobj i p Hi) as (t & Ht & <-).
    destruct (Hobj j p Hj) as (t' & Ht' & <-). by simplify_eq.
Qed.

End Counting.

(** C1. Counter consistency: after any sequence of database calls issued
    on live handles from the empty database, [numPending] is the size of
    the pending set, [numRunning + numCanceling] is the number of live
    tasks whose [runStatus] is present, and [numFinished] is the number of
    [markTaskFinished] calls made so far (fewer than 2^64 of them, the
    range of the counter).  A task may be cancelled any number of times. *)
Theorem counter_consistency (ops : list Op) (w : World) :
  run ops World_init = Some w →
  markTaskFinished_calls (trace w) < 2 ^ 64 →
  numPending (m_stats (db w)) = Z.of_nat (size (m_pendingTasks (db w)))
  ∧ numRunning (m_stats (db w)) + numCanceling (m_stats (db w))
    = Z.of_nat (size (dispatchedTasks w))
  ∧ numFinished (m_stats (db w)) = markTaskFinished_calls (trace w).
Proof.
  intros Hrun Hlt.
  destruct (run_consistent ops World_init w World_init_consistent Hrun)
    as [Hh [Hnp Htot Hfin]].
  split_and!.
  - done.
  - pose proof (live_partition w Hh). lia.
  - rewrite Hfin. apply Z.mod_small. split; [|done].
    apply markTaskFinished_calls_nonneg.
Qed.




Lemma counter_consistency_witness :
  run double_cancel World_init = Some after_double_cancel
  ∧ m_stats (db after_double_cancel) = mkTaskStats 0 (-1) 2 1
  ∧ numRunning (m_stats (db after_double_cancel))
    + numCanceling (m_stats (db after_double_cancel))
    = Z.of_nat (size (dispatchedTasks after_double_cancel)).
Proof.
  assert (Hrun : run double_cancel World_init = Some after_double_cancel)
    by (vm_compute; reflexivity).
  split_and!.
  - exact Hrun.
  - vm_compute; reflexivity.
  - apply (counter_consistency double_cancel after_double_cancel Hrun).
    vm_compute; reflexivity.
Defined.

(* ------------------------------------------------------------------ *)
(** ** Cancellation is monotone *)


Section MonotoneCancel.

Implicit Types (w : World) (p q : N).

Lemma canceled_store_other w p q t :
  q ≠ p → canceled w p → canceled (store q t w) p.
Proof.
  intros Hne (t0 & rs & Ht & Hrs & Hc). exists t0, rs. simpl.
  by rewrite lookup_insert_ne.
Qed.

Lemma canceled_same_heap w w' p :
  heap w' = heap w → canceled w p → canceled w' p.
Proof. intros Hh (t & rs & Ht & Hrs & Hc). exists t, rs. by rewrite Hh. Qed.

Lemma heartbeatTask_canceled w p q now :
  canceled w p → canceled (heartbeatTask q now w) p.
Proof.
  intros Hc. unfold heartbeatTask. destruct (decide (q = p)) as [->|Hne].
  - destruct Hc as (t & rs & Ht & Hrs & Hc).
    rewrite (deref_lookup w p t Ht). unfold Task_heartbeat. rewrite Hrs.
    eexists _, _. simpl. rewrite lookup_insert_eq. done.
  - by apply canceled_store_other.
Qed.

Lemma markTaskFinished_heap w q : heap (markTaskFinished q w) = heap w.
Proof. done. Qed.

Lemma markTaskShouldCancel_canceled w p q :
  canceled w p → canceled (markTaskShouldCancel q w) p.
Proof.
  intros Hc. unfold markTaskShouldCancel, Task_markShouldCancel.
  destruct (runStatus (m_status (deref w q))) as [rs|] eqn:Hq.
  - destruct (decide (q = p)) as [->|Hne].
    + eexists _, _. simpl. rewrite lookup_insert_eq. done.
    + destruct Hc as (t0 & rs0 & Ht & Hrs & Hc). exists t0, rs0. simpl.
      by rewrite lookup_insert_ne.
  - by apply (canceled_same_heap w).
Qed.

Lemma takeTaskToRun_canceled w p have now :
  canceled w p → canceled (takeTaskToRun have now w).2 p.
Proof.
  intros Hc. unfold takeTaskToRun.
  destruct (takeTaskToRun_scan _ _ _ _ _).1 as [q|]; [|done]. simpl.
  destruct Hc as (t & rs & Ht & Hrs & Hc). destruct (decide (q = p)) as [->|Hne].
  - rewrite (deref_lookup w p t Ht). unfold Task_markStarted. rewrite Hrs.
    exists t, rs. simpl. by rewrite lookup_insert_eq.
  - exists t, rs. simpl. by rewrite lookup_insert_ne.
Qed.

Lemma cleanupIfZombieTask_heap w q T now :
  heap (cleanupIfZombieTask q T now w).2 = heap w.
Proof.
  unfold cleanupIfZombieTask.
  by destruct (match runStatus _ with Some _ => _ | None => _ end).
Qed.

Lemma cleanupZombieTasks_loop_heap T now items w :
  heap (outcome_world (cleanupZombieTasks_loop T now items w)) = heap w.
Proof.
  revert w. induction items as [|item rest IH]; intros w; simpl; [done|].
  destruct (m_allTasksByID (db w) !! item.1) as [task|]; [|apply IH].
  destruct (m_allTasksByID (db (cleanupIfZombieTask task T now w).2) !! item.1).
  - rewrite IH. apply cleanupIfZombieTask_heap.
  - apply cleanupIfZombieTask_heap.
Qed.

Lemma exec_canceled op w w' p :
  canceled w p → exec op w = Some w' → canceled w' p.
Proof.
  intros Hc. destruct op as [info now addr samples|have now|q now|q|q|T now|states]; simpl.
  - destruct (heap w !! addr) eqn:Hfresh; [done|]. unfold createTask.
    destruct (getUnusedTaskID w samples); [|done..]. intros [= <-].
    destruct Hc as (t & rs & Ht & Hrs & Hc). exists t, rs. simpl.
    rewrite lookup_insert_ne; [done|]. intros ->. by simplify_eq.
  - intros [= <-]. by apply takeTaskToRun_canceled.
  - destruct (is_live w q); [|done]. intros [= <-]. by apply heartbeatTask_canceled.
  - destruct (is_live w q); [|done]. intros [= <-]. by apply (canceled_same_heap w).
  - destruct (is_live w q); [|done]. intros [= <-].
    by apply markTaskShouldCancel_canceled.
  - unfold cleanupZombieTasks.
    pose proof (cleanupZombieTasks_loop_heap T now (entries (m_allTasksByID (db w))) w) as H.
    destruct (cleanupZombieTasks_loop _ _ _ _); [|done]. intros [= <-].
    by apply (canceled_same_heap w).
  - by intros [= <-].
Qed.

End MonotoneCancel.

(** C9. Monotone cancellation: once the [runStatus] of a live task has
    [wasCanceled] set, it stays set after every further sequence of
    database calls ([heartbeatTask], [takeTaskToRun],
    [markTaskShouldCancel], [createTask], [getTasksByStates], and the
    removing calls as well); so as long as the task is in the database its
    state is [Canceling]. *)
Theorem cancellation_is_monotone (ops : list Op) (w w' : World) (p : N) :
  live w p → canceled w p → run ops w = Some w' →
  canceled w' p ∧ getState (m_status (deref w' p)) = Canceling.
Proof.
  intros _ Hc Hrun.
  assert (canceled w' p) as Hc'.
  { revert w Hc Hrun. induction ops as [|op ops IH]; intros w Hc; simpl.
    - by intros [= <-].
    - destruct (exec op w) as [w1|] eqn:Hex; [|done].
      apply IH. by eapply exec_canceled. }
  split; [done|]. destruct Hc' as (t & rs & Ht & Hrs & Hcan).
  rewrite (deref_lookup w' p t Ht). unfold getState. by rewrite Hrs, Hcan.
Qed.



Lemma cancellation_is_monotone_witness :
  getState (m_status (deref (default World_init (run after_cancel_ops canceled_start)) 1%N))
  = Canceling.
Proof.
  apply (cancellation_is_monotone after_cancel_ops canceled_start
           (default World_init (run after_cancel_ops canceled_start)) 1%N).
  - apply is_live_spec. vm_compute; reflexivity.
  - eexists _, _. split_and!; [vm_compute; reflexivity| |]; vm_compute; reflexivity.
  - vm_compute; reflexivity.
Defined.

(* ------------------------------------------------------------------ *)
(** ** heartbeatTask *)


(** C6, as stated, fails: a task in the [Canceling] state is not in the
    [Running] state, yet a heartbeat changes its status. *)
Lemma heartbeatTask_changes_canceling_task :
  getState (m_status (deref canceling_world 1%N)) = Canceling
  ∧ m_status (deref (heartbeatTask 1%N 500 canceling_world) 1%N)
    ≠ m_status (deref canceling_world 1%N)
  ∧ (heartbeatTime <$> runStatus (m_status (deref canceling_world 1%N))) = Some 101
  ∧ (heartbeatTime <$> runStatus (m_status (deref (heartbeatTask 1%N 500 canceling_world) 1%N)))
    = Some 500.
Proof.
  split_and!; [vm_compute; reflexivity| |vm_compute; reflexivity..].
  vm_compute. intros H. discriminate H.
Qed.

(** C6 (amended). [heartbeatTask] on a task whose [runStatus] is present
    (state [Running] or [Canceling]) sets [heartbeatTime] to the current
    time and changes nothing else: not the other fields of the task, its
    state, any other object, the database or the trace.  On a [Pending]
    task it changes nothing at all. *)
Theorem heartbeatTask_effect (w : World) (p : N) (now : Z) (t : Task) :
  heap w !! p = Some t →
  let w' := heartbeatTask p now w in
  db w' = db w ∧ trace w' = trace w
  ∧ (∀ q, q ≠ p → heap w' !! q = heap w !! q)
  ∧ m_id (deref w' p) = m_id t
  ∧ m_command (deref w' p) = m_command t
  ∧ m_schedule (deref w' p) = m_schedule t
  ∧ createTime (m_status (deref w' p)) = createTime (m_status t)
  ∧ getState (m_status (deref w' p)) = getState (m_status t)
  ∧ match runStatus (m_status t) with
    | Some rs =>
        runStatus (m_status (deref w' p))
        = Some (mkTaskRunStatus (wasCanceled rs) (startTime rs) now)
    | None => w' = w
    end.
Proof.
  intros Ht w'. subst w'. unfold heartbeatTask.
  rewrite (deref_lookup w p t Ht). unfold deref, store. simpl.
  rewrite lookup_total_insert_eq.
  split_and!; try done.
  - intros q Hq. by rewrite lookup_insert_ne.
  - unfold Task_heartbeat. by destruct (runStatus (m_status t)).
  - unfold Task_heartbeat. by destruct (runStatus (m_status t)).
  - unfold Task_heartbeat. by destruct (runStatus (m_status t)).
  - unfold Task_heartbeat. by destruct (runStatus (m_status t)).
  - unfold Task_heartbeat, getState.
    destruct (runStatus (m_status t)) as [rs|] eqn:E; simpl; by rewrite ?E.
  - unfold Task_heartbeat. destruct (runStatus (m_status t)) as [rs|] eqn:E; [done|].
    rewrite insert_id by done. by destruct w.
Qed.

Lemma heartbeatTask_effect_witness :
  runStatus (m_status (deref (heartbeatTask 1%N 500 canceling_world) 1%N))
  = Some (mkTaskRunStatus true 101 500).
Proof.
  pose proof (heartbeatTask_effect canceling_world 1%N 500
                (deref canceling_world 1%N)) as H.
  assert (heap canceling_world !! 1%N = Some (deref canceling_world 1%N)) as Hl
    by (vm_compute; reflexivity).
  specialize (H Hl). simpl in H.
  destruct H as (_ & _ & _ & _ & _ & _ & _ & _ & H).
  exact H.
Defined.

(* ------------------------------------------------------------------ *)
(** ** markTaskShouldCancel *)

(** C7. Contract of [markTaskShouldCancel], reached through the request
    handler: on a [Running] task the task becomes [Canceling], stays in
    the database, and one unit moves from [numRunning] to [numCanceling];
    on a [Pending] task the task leaves the map and the pending set,
    [numPending] drops by one and [numFinished] counts one more; when no
    task has the ID the reply is false and nothing changes. *)
Theorem markTaskShouldCancel_contract (w : World) (id : N) :
  consistent w →
  let st := m_stats (db w) in
  let w' := (handle_MarkShouldCancel id w).2 in
  let st' := m_stats (db w') in
  match getTaskByID w id with
  | None => handle_MarkShouldCancel id w = (false, w)
  | Some p =>
      (handle_MarkShouldCancel id w).1 = true
      ∧ (getState (m_status (deref w p)) = Running →
           getState (m_status (deref w' p)) = Canceling
           ∧ (wasCanceled <$> runStatus (m_status (deref w' p))) = Some true
           ∧ getTaskByID w' id = Some p
           ∧ m_pendingTasks (db w') = m_pendingTasks (db w)
           ∧ numRunning st' = numRunning st - 1
           ∧ numCanceling st' = numCanceling st + 1
           ∧ numPending st' = numPending st
           ∧ numFinished st' = numFinished st)
      ∧ (getState (m_status (deref w p)) = Pending →
           getTaskByID w' id = None
           ∧ (p ∉ m_pendingTasks (db w'))
           ∧ (∀ id', getTaskByID w' id' ≠ Some p)
           ∧ numPending st' = numPending st - 1
           ∧ numRunning st' = numRunning st
           ∧ numCanceling st' = numCanceling st
           ∧ numFinished st' = (numFinished st + 1) mod 2 ^ 64
           ∧ markTaskFinished_calls (trace w')
             = markTaskFinished_calls (trace w) + 1)
  end.
Proof.
  intros [[Hobj Hpend] Hs]. simpl. unfold handle_MarkShouldCancel.
  destruct (getTaskByID w id) as [p|] eqn:Hid; [|done].
  unfold getTaskByID in Hid. destruct (Hobj id p Hid) as (t & Ht & <-).
  simpl. split; [done|].
  unfold markTaskShouldCancel, Task_markShouldCancel, getState.
  rewrite (deref_lookup w p t Ht).
  destruct (runStatus (m_status t)) as [rs|] eqn:Hrs.
  - split; [|by destruct (wasCanceled rs)].
    intros _. unfold deref, getTaskByID. simpl. rewrite lookup_total_insert_eq. done.
  - split; [done|]. intros _. unfold markTaskFinished, getTaskByID.
    rewrite (deref_lookup w p t Ht), Hrs. simpl.
    split_and!; try done.
    + by rewrite lookup_delete_eq.
    + set_solver.
    + intros id' Hid'. apply lookup_delete_Some in Hid' as [Hne Hid'].
      destruct (Hobj id' p Hid') as (t' & Ht' & <-). by simplify_eq.
    + rewrite markTaskFinished_calls_app. simpl. lia.
Qed.


Lemma markTaskShouldCancel_contract_witness :
  handle_MarkShouldCancel 9%N two_tasks = (false, two_tasks).
Proof.
  apply (markTaskShouldCancel_contract two_tasks 9%N).
  apply (run_consistent
           [ OpCreateTask info0 100 1%N [7%N];
             OpCreateTask info0 100 2%N [8%N];
             OpTakeTaskToRun ∅ 101 ] World_init two_tasks World_init_consistent).
  vm_compute; reflexivity.
Defined.

(* ------------------------------------------------------------------ *)
(** ** getTasksByStates *)

Lemma getTasksByStates_elem_of (w : World) (states : gset TaskState) (p : N) :
  p ∈ getTasksByStates w states
  ↔ (∃ id, getTaskByID w id = Some p) ∧ getState (m_status (deref w p)) ∈ states.
Proof.
  unfold getTasksByStates, getTaskByID.
  rewrite list_elem_of_filter, list_elem_of_fmap. split.
  - intros [Hs ([id q] & -> & Hin)]. split; [|done]. exists id.
    by apply entries_elem_of.
  - intros [[id Hid] Hs]. split; [done|]. exists (id, p). split; [done|].
    by apply entries_elem_of.
Qed.

Lemma getTasksByStates_NoDup (w : World) (states : gset TaskState) :
  heap_ok w → NoDup (getTasksByStates w states).
Proof.
  intros [Hobj _]. unfold getTasksByStates. apply NoDup_filter.
  apply NoDup_fmap_2_strong.
  - intros [i p] [j q] Hi Hj Heq. simpl in Heq. subst q.
    apply entries_elem_of in Hi, Hj.
    destruct (Hobj i p Hi) as (t & Ht & <-).
    destruct (Hobj j p Hj) as (t' & Ht' & <-). by simplify_eq.
  - unfold entries. rewrite merge_sort_Permutation. apply NoDup_map_to_list.
Qed.

(** C5. Capacity refusal of the listing: whatever the queried state set,
    the request is refused with the overflow signal (no list at all)
    whenever the number of live tasks exceeds the threshold; otherwise it
    returns exactly the live tasks whose derived state is in the queried
    set, each once. *)
Theorem getTasksByStates_capacity (threshold : Z) (states : gset TaskState) (w : World) :
  heap_ok w →
  (threshold < getTotalTaskCount w →
     handle_GetTasksByStates threshold states w = None)
  ∧ (getTotalTaskCount w <= threshold →
     ∃ tasks, handle_GetTasksByStates threshold states w = Some tasks
       ∧ tasks = getTasksByStates w states
       ∧ NoDup tasks
       ∧ ∀ p, p ∈ tasks ↔ live w p ∧ getState (m_status (deref w p)) ∈ states).
Proof.
  intros Hok. unfold handle_GetTasksByStates. split.
  - intros Hlt. by rewrite (proj2 (Z.ltb_lt _ _) Hlt).
  - intros Hle. rewrite (proj2 (Z.ltb_ge _ _) Hle). eexists. split_and!; try done.
    + by apply getTasksByStates_NoDup.
    + intros p. rewrite getTasksByStates_elem_of.
      enough ((∃ id, getTaskByID w id = Some p) ↔ live w p) as -> by done.
      split.
      * intros [id Hid]. by eapply live_entry.
      * intros (t & Ht & Hl). by exists (m_id t).
Qed.

Lemma getTasksByStates_capacity_witness :
  handle_GetTasksByStates 1 {[Pending; Running]} two_tasks = None
  ∧ handle_GetTasksByStates 2 {[Pending]} two_tasks = Some [2%N].
Proof.
  assert (heap_ok two_tasks) as Hok.
  { apply (run_consistent
             [ OpCreateTask info0 100 1%N [7%N];
               OpCreateTask info0 100 2%N [8%N];
               OpTakeTaskToRun ∅ 101 ] World_init two_tasks World_init_consistent).
    vm_compute; reflexivity. }
  split.
  - apply (getTasksByStates_capacity 1 {[Pending; Running]} two_tasks Hok).
    vm_compute; reflexivity.
  - vm_compute; reflexivity.
Defined.

(* ------------------------------------------------------------------ *)
(** ** cleanupZombieTasks *)


Section Cleanup.

Implicit Types (w : World) (p q : N).

Lemma cleanupIfZombieTask_not_lapsed w p T now :
  ¬ lapsed w T now p → cleanupIfZombieTask p T now w = (false, w).
Proof.
  intros Hn. unfold cleanupIfZombieTask.
  destruct (runStatus (m_status (deref w p))) as [rs|] eqn:Hrs; [|done].
  destruct (T <=? now - heartbeatTime rs) eqn:E; [|done].
  destruct Hn. exists rs. split; [done|]. by apply Z.leb_le.
Qed.

Lemma cleanupIfZombieTask_lapsed w p T now :
  lapsed w T now p → cleanupIfZombieTask p T now w = (true, markTaskFinished p w).
Proof.
  intros (rs & Hrs & Hle). unfold cleanupIfZombieTask. rewrite Hrs.
  by rewrite (proj2 (Z.leb_le _ _) Hle).
Qed.

Lemma lapsed_dec w T now p : Decision (lapsed w T now p).
Proof.
  unfold lapsed. destruct (runStatus (m_status (deref w p))) as [rs|].
  - destruct (decide (T <= now - heartbeatTime rs)) as [H|H].
    + left. by exists rs.
    + right. intros (rs' & [= <-] & ?). done.
  - right. by intros (rs' & [=] & _).
Qed.

(** What one reaping step leaves untouched: a live task that is pending. *)
Lemma markTaskFinished_keeps_pending w p q t :
  heap_ok w → live w q →
  heap w !! p = Some t → m_allTasksByID (db w) !! m_id t = Some p →
  runStatus (m_status t) = None →
  is_Some (runStatus (m_status (deref w q))) →
  m_allTasksByID (db (markTaskFinished q w)) !! m_id t = Some p
  ∧ p ∈ m_pendingTasks (db (markTaskFinished q w)).
Proof.
  intros [Hobj Hpend] (tq & Hq & Hlq) Hp Hl Hn Hrun.
  rewrite (deref_lookup w q tq Hq) in Hrun.
  assert (q ≠ p) as Hne.
  { intros ->. simplify_eq. rewrite Hn in Hrun. by destruct Hrun. }
  unfold markTaskFinished. rewrite (deref_lookup w q tq Hq). simpl. split.
  - rewrite lookup_delete_ne; [done|]. intros Heq. rewrite Heq in Hlq. by simplify_eq.
  - apply elem_of_difference. split; [|set_solver].
    apply Hpend. by exists t.
Qed.

Lemma cleanupZombieTasks_loop_keeps_pending T now items w p t :
  consistent w →
  heap w !! p = Some t → m_allTasksByID (db w) !! m_id t = Some p →
  runStatus (m_status t) = None →
  let w' := outcome_world (cleanupZombieTasks_loop T now items w) in
  m_allTasksByID (db w') !! m_id t = Some p ∧ p ∈ m_pendingTasks (db w').
Proof.
  revert w. induction items as [|item rest IH]; intros w Hc Hp Hl Hn; simpl.
  - split; [done|]. apply Hc. by exists t.
  - destruct (m_allTasksByID (db w) !! item.1) as [task|] eqn:Hitem; [|by apply IH].
    assert (live w task) as Hlive by (eapply live_entry; [apply Hc|done]).
    assert (consistent (cleanupIfZombieTask task T now w).2) as Hc'
      by by apply cleanupIfZombieTask_consistent.
    assert (m_allTasksByID (db (cleanupIfZombieTask task T now w).2) !! m_id t = Some p
            ∧ p ∈ m_pendingTasks (db (cleanupIfZombieTask task T now w).2)) as [Hl' Hp'].
    { destruct (lapsed_dec w T now task) as [Hz|Hz].
      - rewrite cleanupIfZombieTask_lapsed by done. simpl.
        destruct Hz as (rs & Hrs & _).
        apply (markTaskFinished_keeps_pending w p task t).
        all: try done; try apply Hc; try (rewrite Hrs; by eexists).
      - rewrite cleanupIfZombieTask_not_lapsed by done. simpl.
        split; [done|]. apply Hc. by exists t. }
    destruct (m_allTasksByID (db (cleanupIfZombieTask task T now w).2) !! item.1).
    + apply IH; try done. by rewrite cleanupIfZombieTask_heap.
    + simpl. done.
Qed.

(** When some live task has lapsed, the loop erases the entry its own
    iterator stands on. *)
Lemma cleanupZombieTasks_loop_invalidates T now items w id p :
  heap_ok w → (id, p) ∈ items →
  m_allTasksByID (db w) !! id = Some p → lapsed w T now p →
  ∃ w', cleanupZombieTasks_loop T now items w = IteratorInvalidated w'.
Proof.
  intros Hok. induction items as [|item rest IH]; intros Hin Hid Hz.
  - by apply elem_of_nil in Hin.
  - simpl. destruct (m_allTasksByID (db w) !! item.1) as [task|] eqn:Hitem.
    + destruct (lapsed_dec w T now task) as [Hzt|Hzt].
      * rewrite cleanupIfZombieTask_lapsed by done. simpl.
        destruct (ok_object w Hok _ _ Hitem) as (tt & Htt & Hidt).
        rewrite (deref_lookup w task tt Htt), Hidt, lookup_delete_eq.
        by eexists.
      * rewrite cleanupIfZombieTask_not_lapsed by done. simpl. rewrite Hitem.
        apply IH; try done. apply elem_of_cons in Hin as [Heq|Hin]; [|done].
        subst item. simpl in Hitem. simplify_eq. contradiction.
    + apply IH; try done. apply elem_of_cons in Hin as [Heq|Hin]; [|done].
      subst item. simpl in Hitem. simplify_eq.
Qed.

(** One step of the reaper does what is intended: a lapsed live task
    leaves the database, [numFinished] counts one more, and every other
    live task stays. *)
Lemma cleanupIfZombieTask_reaps w id p T now :
  heap_ok w → getTaskByID w id = Some p → lapsed w T now p →
  let w' := (cleanupIfZombieTask p T now w).2 in
  (cleanupIfZombieTask p T now w).1 = true
  ∧ getTaskByID w' id = None
  ∧ numFinished (m_stats (db w')) = (numFinished (m_stats (db w)) + 1) mod 2 ^ 64
  ∧ ∀ id', id' ≠ id → getTaskByID w' id' = getTaskByID w id'.
Proof.
  intros [Hobj _] Hid Hz. simpl. rewrite cleanupIfZombieTask_lapsed by done.
  unfold getTaskByID in *. destruct (Hobj id p Hid) as (t & Ht & <-).
  unfold markTaskFinished. rewrite (deref_lookup w p t Ht). simpl.
  split_and!; try done.
  - by rewrite lookup_delete_eq.
  - by destruct (runStatus (m_status t)) as [[[] ? ?]|].
  - intros id' Hne. by rewrite lookup_delete_ne.
Qed.

End Cleanup.

(** C10. [cleanupZombieTasks] never removes a [Pending] task, however
    small the timeout and however old the task: the per-task check leaves
    the database alone, and in the state the loop ends in the task is still
    in the map, still in the pending set, unchanged, and the database is
    still consistent, so the same holds for every later call. *)
Theorem cleanupZombieTasks_keeps_pending (T now : Z) (w : World) (p : N) :
  consistent w → live w p →
  getState (m_status (deref w p)) = Pending →
  let w' := outcome_world (cleanupZombieTasks T now w) in
  cleanupIfZombieTask p T now w = (false, w)
  ∧ consistent w'
  ∧ live w' p
  ∧ p ∈ m_pendingTasks (db w')
  ∧ deref w' p = deref w p
  ∧ getState (m_status (deref w' p)) = Pending.
Proof.
  intros Hc (t & Hp & Hl) Hst. simpl.
  rewrite (deref_lookup w p t Hp) in Hst.
  assert (runStatus (m_status t) = None) as Hn.
  { unfold getState in Hst. destruct (runStatus (m_status t)) as [rs|]; [|done].
    by destruct (wasCanceled rs). }
  destruct (cleanupZombieTasks_loop_keeps_pending T now
              (entries (m_allTasksByID (db w))) w p t Hc Hp Hl Hn) as [Hl' Hp'].
  assert (heap (outcome_world (cleanupZombieTasks T now w)) !! p = Some t) as Hh'.
  { unfold cleanupZombieTasks. by rewrite cleanupZombieTasks_loop_heap. }
  split_and!.
  - apply cleanupIfZombieTask_not_lapsed. intros (rs & Hrs & _).
    rewrite (deref_lookup w p t Hp), Hn in Hrs. done.
  - by apply cleanupZombieTasks_loop_consistent.
  - by exists t.
  - done.
  - by rewrite (deref_lookup _ p t Hh'), (deref_lookup w p t Hp).
  - rewrite (deref_lookup _ p t Hh'). unfold getState. by rewrite Hn.
Qed.

(** One task dispatched at time 101 and one never dispatched, created at
    time 100. *)
Lemma cleanupZombieTasks_keeps_pending_witness :
  live (outcome_world (cleanupZombieTasks 0 1000000 two_tasks)) 2%N.
Proof.
  apply (cleanupZombieTasks_keeps_pending 0 1000000 two_tasks 2%N).
  - apply (run_consistent
             [ OpCreateTask info0 100 1%N [7%N];
               OpCreateTask info0 100 2%N [8%N];
               OpTakeTaskToRun ∅ 101 ] World_init two_tasks World_init_consistent).
    vm_compute; reflexivity.
  - apply is_live_spec. vm_compute; reflexivity.
  - vm_compute; reflexivity.
Defined.

(** C3 (the defect). Whenever at least one live task has lapsed,
    [cleanupZombieTasks] erases the map entry its own loop iterator refers
    to and then advances that iterator: from there on the behaviour of the
    call is not defined, so neither its return nor the removal of the other
    lapsed tasks is guaranteed. *)
Theorem cleanupZombieTasks_invalidates_iterator (T now : Z) (w : World) (id p : N) :
  heap_ok w →
  m_allTasksByID (db w) !! id = Some p → lapsed w T now p →
  ∃ w', cleanupZombieTasks T now w = IteratorInvalidated w'.
Proof.
  intros Hok Hid Hz. unfold cleanupZombieTasks.
  apply (cleanupZombieTasks_loop_invalidates T now _ w id p); try done.
  by apply entries_elem_of.
Qed.


Lemma cleanupZombieTasks_invalidates_iterator_witness :
  ∃ w', cleanupZombieTasks 60 1000 two_zombies = IteratorInvalidated w'.
Proof.
  apply (cleanupZombieTasks_invalidates_iterator 60 1000 two_zombies 8%N 2%N).
  - apply (run_consistent
             [ OpCreateTask info0 100 1%N [7%N];
               OpCreateTask info0 100 2%N [8%N];
               OpTakeTaskToRun ∅ 101;
               OpTakeTaskToRun ∅ 101 ] World_init two_zombies World_init_consistent).
    vm_compute; reflexivity.
  - vm_compute; reflexivity.
  - eexists. split; [vm_compute; reflexivity|]. vm_compute. discriminate.
Defined.

(** At the failing input the loop stops on the first entry: the task with
    ID 7 is gone, the lapsed task with ID 8 is still in the database. *)
Example cleanupZombieTasks_two_zombies :
  match cleanupZombieTasks 60 1000 two_zombies with
  | CleanupReturned _ => False
  | IteratorInvalidated w' =>
      getTaskByID w' 7%N = None ∧ getTaskByID w' 8%N = Some 2%N
      ∧ numFinished (m_stats (db w')) = 1
  end.
Proof. vm_compute. done. Qed.

(* ------------------------------------------------------------------ *)
(** ** getUnusedTaskID *)

Lemma getUnusedTaskID_loop_never_fatal all randID sanityCount warnings samples n :
  getUnusedTaskID_loop all randID sanityCount warnings samples ≠ IdFatal n.
Proof.
  revert randID sanityCount warnings.
  induction samples as [|r samples IH]; intros randID sanityCount warnings; simpl.
  - by destruct (all !! randID).
  - destruct (all !! randID); [|done].
    destruct (10 <? sanityCount + 1) eqn:E10; [apply IH|].
    destruct (1000 <? sanityCount + 1) eqn:E1000; [|apply IH].
    apply Z.ltb_ge in E10. apply Z.ltb_lt in E1000. lia.
Qed.

Lemma getUnusedTaskID_loop_collisions all used free rest :
  ∀ randID sanityCount warnings,
    is_Some (all !! randID) →
    Forall (λ r, is_Some (all !! r)) used →
    all !! free = None →
    getUnusedTaskID_loop all randID sanityCount warnings (used ++ free :: rest)
    = IdFound free
        (warnings + Z.to_nat (Z.max (sanityCount + 1 + Z.of_nat (length used)) 10
                              - Z.max sanityCount 10)).
Proof.
  induction used as [|u used IH]; intros randID sanityCount warnings [x Hr] Hused Hfree.
  - cbn [app getUnusedTaskID_loop length]. rewrite Hr.
    destruct (10 <? sanityCount + 1) eqn:E10.
    + destruct rest; cbn [getUnusedTaskID_loop]; rewrite Hfree; f_equal;
        apply Z.ltb_lt in E10; lia.
    + apply Z.ltb_ge in E10.
      assert ((1000 <? sanityCount + 1) = false) as -> by (apply Z.ltb_ge; lia).
      destruct rest; cbn [getUnusedTaskID_loop]; rewrite Hfree; f_equal; lia.
  - apply Forall_cons in Hused as [Hu Hused].
    cbn [app getUnusedTaskID_loop length]. rewrite Hr.
    destruct (10 <? sanityCount + 1) eqn:E10.
    + rewrite IH by done. apply Z.ltb_lt in E10. f_equal. lia.
    + apply Z.ltb_ge in E10.
      assert ((1000 <? sanityCount + 1) = false) as -> by (apply Z.ltb_ge; lia).
      rewrite IH by done. f_equal. lia.
Qed.

(** C4 (the defect). [getUnusedTaskID] samples until the value is not a
    key of the map and returns that value, with one warning for every
    collision after the tenth; but it never gives up: the test
    [sanityCount > 1000] sits in the [else] branch of [sanityCount > 10],
    so [fail] is never called, and after any number of collisions, also
    more than 1000, the next unused sample is returned. *)
Theorem getUnusedTaskID_never_gives_up (w : World) (used : list N) (free : N)
    (rest : list N) :
  Forall (λ r, is_Some (getTaskByID w r)) used →
  getTaskByID w free = None →
  (∀ samples n, getUnusedTaskID w samples ≠ IdFatal n)
  ∧ getUnusedTaskID w (used ++ free :: rest)
    = IdFound free (Z.to_nat (Z.of_nat (length used) - 10)).
Proof.
  intros Hused Hfree. split.
  - intros samples n. unfold getUnusedTaskID. destruct samples as [|r samples]; [done|].
    apply getUnusedTaskID_loop_never_fatal.
  - unfold getUnusedTaskID, getTaskByID in *. destruct used as [|r used].
    + cbn [app length]. destruct rest; cbn [getUnusedTaskID_loop]; by rewrite Hfree.
    + apply Forall_cons in Hused as [Hr Hused]. cbn [app length].
      rewrite getUnusedTaskID_loop_collisions by done. f_equal. lia.
Qed.

(** A database holding the ID 7 and a PRNG that returns 7 for 1200 calls in
    a row, then 9: the search returns 9 after 1200 collisions. *)
Lemma getUnusedTaskID_never_gives_up_witness :
  getUnusedTaskID two_tasks (replicate 1200 7%N ++ [9%N]) = IdFound 9%N 1190.
Proof.
  assert (Z.to_nat (Z.of_nat (length (replicate 1200 7%N)) - 10) = 1190)%nat as <-
    by (vm_compute; reflexivity).
  apply (getUnusedTaskID_never_gives_up two_tasks (replicate 1200 7%N) 9%N []).
  - apply Forall_replicate. vm_compute. by eexists.
  - vm_compute; reflexivity.
Defined.

(** With 1200 colliding samples and nothing else the search is still
    running after 1199 collisions. *)
Example getUnusedTaskID_1199_collisions :
  getUnusedTaskID two_tasks (replicate 1200 7%N) = IdSearching 1199 1189.
Proof. vm_compute. reflexivity. Qed.

(* ================================================================== *)
(** * Serialization round trips *)
(* ================================================================== *)

Section Codec.

(** Reducing a read that has been rewritten to [Some _]. *)
Ltac next_read := cbv beta iota delta [mbind option_bind].

Lemma Z_of_byte_of_Z v : Z_of_byte (byte_of_Z v) = v mod 256.
Proof.
  unfold Z_of_byte, byte_of_Z.
  assert (0 <= v mod 256 < 256) as Hr by (apply Z.mod_pos_bound; lia).
  destruct (Byte.of_N (Z.to_N (v mod 256))) as [b|] eqn:E; simpl.
  - apply Byte.to_of_N in E. rewrite E. lia.
  - apply Byte.of_N_None_iff in E. lia.
Qed.

Lemma length_le_bytes n v : length (le_bytes n v) = n.
Proof. revert v. induction n as [|n IH]; intros v; simpl; [done|]. by rewrite IH. Qed.

Lemma le_value_le_bytes n v : le_value (le_bytes n v) = v mod 256 ^ Z.of_nat n.
Proof.
  revert v. induction n as [|n IH]; intros v.
  - simpl. by rewrite Z.mod_1_r.
  - cbn [le_bytes le_value]. rewrite Z_of_byte_of_Z, IH.
    rewrite Nat2Z.inj_succ, Z.pow_succ_r by lia.
    rewrite Z.rem_mul_r; [done|lia|]. apply Z.pow_pos_nonneg; lia.
Qed.

Lemma read_bytes_app n (bs rest : Blob) :
  length bs = n → read_bytes n (bs ++ rest) = Some (bs, rest).
Proof.
  intros <-. unfold read_bytes.
  rewrite (proj2 (Nat.leb_le _ _)) by (rewrite length_app; lia).
  by rewrite take_app_length, drop_app_length.
Qed.

Lemma write_uint64_app v writer : write_uint64 v writer = writer ++ write_uint64 v [].
Proof. done. Qed.

Lemma read_write_uint64 v rest :
  0 <= v < 2 ^ 64 → read_uint64 (write_uint64 v [] ++ rest) = Some (v, rest).
Proof.
  intros Hv. unfold read_uint64, write_uint64. rewrite app_nil_l.
  rewrite read_bytes_app by apply length_le_bytes. next_read.
  rewrite (le_value_le_bytes 8). by rewrite Z.mod_small by (simpl; lia).
Qed.

Lemma read_write_uint32 v rest :
  0 <= v < 2 ^ 32 → read_uint32 (write_uint32 v [] ++ rest) = Some (v, rest).
Proof.
  intros Hv. unfold read_uint32, write_uint32. rewrite app_nil_l.
  rewrite read_bytes_app by apply length_le_bytes. next_read.
  rewrite (le_value_le_bytes 4). by rewrite Z.mod_small by (simpl; lia).
Qed.

Lemma write_time_app v writer : write_time v writer = writer ++ write_time v [].
Proof. done. Qed.

Lemma read_write_time v rest :
  time_fits v → read_time (write_time v [] ++ rest) = Some (v, rest).
Proof.
  unfold time_fits. intros Hv. unfold read_time, write_time. rewrite app_nil_l.
  rewrite read_bytes_app by apply length_le_bytes. next_read.
  rewrite (le_value_le_bytes 8). rewrite Z.mod_mod by (simpl; lia).
  change (256 ^ Z.of_nat 8) with (2 ^ 64).
  destruct (decide (0 <= v)) as [Hpos|Hneg].
  - rewrite Z.mod_small by lia. by rewrite (proj2 (Z.ltb_lt _ _)) by lia.
  - replace (v mod 2 ^ 64) with (v + 2 ^ 64).
    + rewrite (proj2 (Z.ltb_ge _ _)) by lia. do 2 f_equal. lia.
    + apply (Z.mod_unique _ _ (-1)); lia.
Qed.

Lemma write_bool_app b writer : write_bool b writer = writer ++ write_bool b [].
Proof. done. Qed.

Lemma read_write_bool b rest : read_bool (write_bool b [] ++ rest) = Some (b, rest).
Proof. by destruct b. Qed.

Lemma write_string_app s writer : write_string s writer = writer ++ write_string s [].
Proof. unfold write_string, write_uint32. by rewrite app_nil_l, <- app_assoc. Qed.

Lemma read_write_string s rest :
  string_fits s → read_string (write_string s [] ++ rest) = Some (s, rest).
Proof.
  unfold string_fits. intros Hs. unfold read_string, write_string.
  rewrite <- app_assoc. rewrite read_write_uint32 by lia. next_read.
  rewrite Nat2Z.id, read_bytes_app by done. next_read.
  by rewrite String.string_of_list_byte_of_string.
Qed.

Lemma write_resources_app resources writer :
  write_resources resources writer = writer ++ write_resources resources [].
Proof.
  unfold write_resources. revert writer.
  induction resources as [|r resources IH]; intros writer; simpl.
  - by rewrite app_nil_r.
  - rewrite IH. rewrite (IH (write_string r [])).
    by rewrite (write_string_app r writer), app_assoc.
Qed.

Lemma read_write_resources resources rest :
  Forall string_fits resources →
  read_resources (length resources) (write_resources resources [] ++ rest)
  = Some (resources, rest).
Proof.
  induction 1 as [|r resources Hr Hrs IH]; [done|].
  cbn [length read_resources]. unfold write_resources. simpl fold_left.
  fold (write_resources resources (write_string r [])).
  rewrite write_resources_app, <- app_assoc.
  rewrite read_write_string by done. next_read. by rewrite IH.
Qed.

Lemma TaskSchedule_serialize_app s writer :
  TaskSchedule_serialize s writer = writer ++ TaskSchedule_serialize s [].
Proof.
  unfold TaskSchedule_serialize.
  rewrite (write_resources_app (optionalResources s)).
  rewrite (write_uint64_app _ (write_resources _ _)).
  rewrite (write_resources_app (requiredResources s)).
  rewrite (write_uint64_app _ writer).
  rewrite (write_resources_app (optionalResources s) (write_uint64 _ (write_resources _ _))).
  rewrite (write_uint64_app _ (write_resources _ (write_uint64 _ []))).
  rewrite (write_resources_app (requiredResources s) (write_uint64 _ [])).
  by rewrite !app_assoc.
Qed.

Lemma TaskSchedule_round_trip s target rest :
  schedule_fits s →
  TaskSchedule_deserialize target (TaskSchedule_serialize s [] ++ rest)
  = Some (mkTaskSchedule (requiredResources s) (optionalResources s)
            (workerUsage_FixedPoint target), rest).
Proof.
  intros [[Hrl Hr] [Hol Ho]]. unfold TaskSchedule_serialize, TaskSchedule_deserialize.
  rewrite (write_resources_app (optionalResources s)).
  rewrite (write_uint64_app _ (write_resources _ _)).
  rewrite (write_resources_app (requiredResources s)).
  rewrite <- !app_assoc.
  rewrite read_write_uint64 by lia. next_read. rewrite Nat2Z.id.
  rewrite read_write_resources by done. next_read.
  rewrite read_write_uint64 by lia. next_read. rewrite Nat2Z.id.
  rewrite read_write_resources by done. done.
Qed.

Lemma TaskRunStatus_serialize_app rs writer :
  TaskRunStatus_serialize rs writer = writer ++ TaskRunStatus_serialize rs [].
Proof.
  unfold TaskRunStatus_serialize, write_time, write_bool. simpl.
  by rewrite <- !app_assoc.
Qed.

Lemma TaskRunStatus_round_trip rs rest :
  time_fits (startTime rs) → time_fits (heartbeatTime rs) →
  TaskRunStatus_deserialize (TaskRunStatus_serialize rs [] ++ rest) = Some (rs, rest).
Proof.
  intros Hs Hh. unfold TaskRunStatus_serialize, TaskRunStatus_deserialize.
  rewrite (write_time_app (heartbeatTime rs)), (write_time_app (startTime rs)).
  rewrite <- !app_assoc.
  rewrite read_write_bool. next_read. rewrite read_write_time by done. next_read.
  rewrite read_write_time by done. next_read. by destruct rs.
Qed.

Lemma TaskStatus_round_trip st rest :
  status_fits st →
  TaskStatus_deserialize (TaskStatus_serialize st [] ++ rest) = Some (st, rest).
Proof.
  intros [Hc Hrs]. unfold TaskStatus_serialize, TaskStatus_deserialize.
  destruct st as [ct [rs|]]; cbn [runStatus createTime] in *.
  - destruct Hrs as [Hs Hh].
    rewrite TaskRunStatus_serialize_app, (write_bool_app true).
    rewrite <- !app_assoc. rewrite read_write_time by done. next_read.
    rewrite read_write_bool. next_read.
    rewrite TaskRunStatus_round_trip by done. done.
  - rewrite (write_bool_app false), <- !app_assoc.
    rewrite read_write_time by done. next_read. by rewrite read_write_bool.
Qed.

Lemma TaskCreateInfo_round_trip info target rest :
  string_fits (command info) → schedule_fits (schedule info) →
  TaskCreateInfo_deserialize target (TaskCreateInfo_serialize info [] ++ rest)
  = Some (mkTaskCreateInfo (command info)
            (mkTaskSchedule (requiredResources (schedule info))
               (optionalResources (schedule info))
               (workerUsage_FixedPoint (schedule target))), rest).
Proof.
  intros Hc Hs. unfold TaskCreateInfo_serialize, TaskCreateInfo_deserialize.
  rewrite TaskSchedule_serialize_app, <- app_assoc.
  rewrite read_write_string by done. next_read.
  by rewrite TaskSchedule_round_trip.
Qed.

End Codec.

(** C8. Serialization round trip: deserializing the bytes [serialize]
    produced succeeds, consumes exactly those bytes, and rebuilds the value:
    for a [TaskSchedule] the [requiredResources] and [optionalResources]
    lists, for a [TaskStatus] the whole status ([createTime] and the optional
    [runStatus] with [wasCanceled], [startTime], [heartbeatTime]), for a
    [TaskCreateInfo] the command and the two lists of its schedule. *)
Theorem serialization_round_trip :
  (∀ (s target : TaskSchedule) (rest : Blob),
     schedule_fits s →
     ∃ s', TaskSchedule_deserialize target (TaskSchedule_serialize s [] ++ rest)
           = Some (s', rest)
           ∧ requiredResources s' = requiredResources s
           ∧ optionalResources s' = optionalResources s)
  ∧ (∀ (st : TaskStatus) (rest : Blob),
       status_fits st →
       TaskStatus_deserialize (TaskStatus_serialize st [] ++ rest) = Some (st, rest))
  ∧ (∀ (info target : TaskCreateInfo) (rest : Blob),
       string_fits (command info) → schedule_fits (schedule info) →
       ∃ info', TaskCreateInfo_deserialize target
                  (TaskCreateInfo_serialize info [] ++ rest) = Some (info', rest)
                ∧ command info' = command info
                ∧ requiredResources (schedule info') = requiredResources (schedule info)
                ∧ optionalResources (schedule info') = optionalResources (schedule info)).
Proof.
  split_and!.
  - intros s target rest Hs. eexists. split; [by apply TaskSchedule_round_trip|done].
  - intros st rest Hs. by apply TaskStatus_round_trip.
  - intros info target rest Hc Hs. eexists.
    split; [by apply TaskCreateInfo_round_trip|done].
Qed.


Lemma serialization_round_trip_witness :
  (∃ s', TaskSchedule_deserialize emptySchedule (TaskSchedule_serialize schedule1 [])
         = Some (s', [])
         ∧ requiredResources s' = ["GPU"; "CPU"]
         ∧ optionalResources s' = ["XYZ123"])
  ∧ TaskStatus_deserialize (TaskStatus_serialize status1 []) = Some (status1, []).
Proof.
  destruct serialization_round_trip as (Hs & Hst & _). split.
  - specialize (Hs schedule1 emptySchedule []). rewrite app_nil_r in Hs.
    apply Hs. unfold schedule_fits, resources_fit. split_and!.
    + vm_compute. reflexivity.
    + repeat (apply Forall_cons; split; [vm_compute; reflexivity|]). by apply Forall_nil.
    + vm_compute. reflexivity.
    + repeat (apply Forall_cons; split; [vm_compute; reflexivity|]). by apply Forall_nil.
  - specialize (Hst status1 []). rewrite app_nil_r in Hst.
    apply Hst. unfold status_fits, time_fits. cbn [createTime runStatus status1 startTime heartbeatTime].
    lia.
Defined.

Example TaskSchedule_bytes :
  TaskSchedule_serialize (mkTaskSchedule ["a"] [] 9) []
  = [Byte.x01; Byte.x00; Byte.x00; Byte.x00; Byte.x00; Byte.x00; Byte.x00; Byte.x00;
     Byte.x01; Byte.x00; Byte.x00; Byte.x00; Byte.x61;
     Byte.x00; Byte.x00; Byte.x00; Byte.x00; Byte.x00; Byte.x00; Byte.x00; Byte.x00].
Proof. vm_compute. reflexivity. Qed.

(* ================================================================== *)
(** * Facts about the single-precision operations *)
(* ================================================================== *)


Section Float.

Lemma digits2_pos_bounds p :
  2 ^ (Z.pos (digits2_pos p) - 1) <= Z.pos p < 2 ^ Z.pos (digits2_pos p).
Proof.
  induction p as [p IH|p IH|]; cbn [digits2_pos].
  - rewrite Pos2Z.inj_succ. change (Z.pos p~1) with (2 * Z.pos p + 1).
    replace (Z.succ (Z.pos (digits2_pos p)) - 1) with (Z.succ (Z.pos (digits2_pos p) - 1)) by lia.
    rewrite !Z.pow_succ_r by lia. lia.
  - rewrite Pos2Z.inj_succ. change (Z.pos p~0) with (2 * Z.pos p).
    replace (Z.succ (Z.pos (digits2_pos p)) - 1) with (Z.succ (Z.pos (digits2_pos p) - 1)) by lia.
    rewrite !Z.pow_succ_r by lia. lia.
  - simpl. lia.
Qed.

Lemma digits_le_of_lt p k : 0 <= k → Z.pos p < 2 ^ k → Z.pos (digits2_pos p) <= k.
Proof.
  intros Hk Hlt. destruct (digits2_pos_bounds p) as [Hlo _].
  destruct (decide (Z.pos (digits2_pos p) <= k)) as [|Hn]; [done|].
  assert (2 ^ k <= 2 ^ (Z.pos (digits2_pos p) - 1)) by (apply Z.pow_le_mono_r; lia).
  lia.
Qed.

Lemma digits_ge_of_le p k : 0 <= k → 2 ^ k <= Z.pos p → k + 1 <= Z.pos (digits2_pos p).
Proof.
  intros Hk Hle. destruct (digits2_pos_bounds p) as [_ Hhi].
  destruct (decide (k + 1 <= Z.pos (digits2_pos p))) as [|Hn]; [done|].
  assert (2 ^ Z.pos (digits2_pos p) <= 2 ^ k) by (apply Z.pow_le_mono_r; lia).
  lia.
Qed.

Lemma digits2_pos_iter_xO p k :
  Z.pos (digits2_pos (PosDef.Pos.iter xO p k)) = Z.pos (digits2_pos p) + Z.pos k.
Proof.
  change (PosDef.Pos.iter xO p k) with (Pos.iter xO p k).
  induction k as [|k IH] using Pos.peano_ind.
  - simpl. lia.
  - rewrite Pos.iter_succ. cbn [digits2_pos]. rewrite Pos2Z.inj_succ, IH. lia.
Qed.

Lemma shr_1_m mrs : 0 <= shr_m mrs → shr_m (shr_1 mrs) = shr_m mrs / 2.
Proof.
  destruct mrs as [m r s]. cbn [shr_m]. intros Hm.
  destruct m as [|[p|p|]|p]; cbn [shr_1 shr_m]; try lia.
  - done.
  - change (Z.pos p~1) with (2 * Z.pos p + 1). apply (Z.div_unique _ _ _ 1); lia.
  - change (Z.pos p~0) with (2 * Z.pos p). apply (Z.div_unique _ _ _ 0); lia.
  - done.
Qed.

Lemma shr_iter_m k mrs :
  0 <= shr_m mrs → shr_m (SpecFloat.iter_pos shr_1 k mrs) = shr_m mrs / 2 ^ Z.pos k.
Proof.
  revert mrs. induction k as [k IH|k IH|]; intros mrs Hm; cbn [SpecFloat.iter_pos].
  - assert (0 <= shr_m (shr_1 mrs)) as H1 by (rewrite shr_1_m by done; apply Z.div_pos; lia).
    assert (0 < 2 ^ Z.pos k) as Hp by (apply Z.pow_pos_nonneg; lia).
    assert (0 <= shr_m (SpecFloat.iter_pos shr_1 k (shr_1 mrs))) as H2
      by (rewrite IH by done; apply Z.div_pos; lia).
    rewrite IH, IH, shr_1_m by done.
    rewrite !Z.div_div by lia. f_equal.
    change (Z.pos k~1) with (2 * Z.pos k + 1). replace (2 * Z.pos k + 1) with (1 + Z.pos k + Z.pos k) by lia.
    rewrite !Z.pow_add_r by lia. lia.
  - assert (0 < 2 ^ Z.pos k) as Hp by (apply Z.pow_pos_nonneg; lia).
    assert (0 <= shr_m (SpecFloat.iter_pos shr_1 k mrs)) as H2
      by (rewrite IH by done; apply Z.div_pos; lia).
    rewrite IH, IH by done. rewrite Z.div_div by lia. f_equal.
    change (Z.pos k~0) with (2 * Z.pos k). replace (2 * Z.pos k) with (Z.pos k + Z.pos k) by lia.
    rewrite Z.pow_add_r by lia. lia.
  - rewrite shr_1_m by done. done.
Qed.

Lemma shr_record_of_loc_m m l : shr_m (shr_record_of_loc m l) = m.
Proof. by destruct l as [|[]]. Qed.

(** The mantissa and exponent [shr_fexp] returns. *)
Lemma shr_fexp_spec m e l :
  0 <= m →
  let k := fexp float_prec float_emax (Zdigits2 m + e) - e in
  shr_m (shr_fexp float_prec float_emax m e l).1 = m / 2 ^ Z.max 0 k
  ∧ (shr_fexp float_prec float_emax m e l).2 = e + Z.max 0 k.
Proof.
  intros Hm k. unfold shr_fexp. fold k. unfold shr.
  destruct k as [|kp|kn] eqn:Hk; cbn [fst snd].
  - rewrite shr_record_of_loc_m. simpl. rewrite Z.div_1_r. lia.
  - rewrite shr_iter_m by (by rewrite shr_record_of_loc_m).
    rewrite shr_record_of_loc_m. by rewrite Z.max_r by lia.
  - rewrite shr_record_of_loc_m. rewrite Z.max_l by lia. simpl.
    rewrite Z.div_1_r. lia.
Qed.

Lemma round_nearest_even_bounds m l :
  m <= round_nearest_even m l <= m + 1.
Proof.
  unfold round_nearest_even. destruct l as [|[]]; try lia.
  destruct (Z.even m); lia.
Qed.

(** Rounding a non-negative mantissa never yields NaN and keeps the sign. *)
Lemma binary_round_aux_shape sx mx ex lx :
  0 <= mx →
  match binary_round_aux float_prec float_emax sx mx ex lx with
  | S754_zero s | S754_infinity s | S754_finite s _ _ => s = sx
  | S754_nan => False
  end.
Proof.
  intros Hm. unfold binary_round_aux.
  destruct (shr_fexp_spec mx ex lx Hm) as [Hm1 _].
  destruct (shr_fexp float_prec float_emax mx ex lx) as [mrs1 e1]. simpl in Hm1.
  pose proof (round_nearest_even_bounds (shr_m mrs1) (loc_of_shr_record mrs1)) as Hr.
  assert (0 <= shr_m mrs1) as H1.
  { rewrite Hm1. apply Z.div_pos; [lia|]. apply Z.pow_pos_nonneg; lia. }
  set (m2 := round_nearest_even (shr_m mrs1) (loc_of_shr_record mrs1)) in *.
  assert (0 <= m2) as H2 by lia.
  destruct (shr_fexp_spec m2 e1 loc_Exact H2) as [Hm3 _].
  destruct (shr_fexp float_prec float_emax m2 e1 loc_Exact) as [mrs3 e3]. simpl in Hm3.
  assert (0 <= shr_m mrs3) as H3.
  { rewrite Hm3. apply Z.div_pos; [lia|]. apply Z.pow_pos_nonneg; lia. }
  destruct (shr_m mrs3) as [|p|p]; [done| |lia].
  by destruct (e3 <=? float_emax - float_prec).
Qed.

(** In the normal range and away from overflow, rounding a positive
    mantissa yields a finite non-zero number. *)
Lemma binary_round_aux_finite sx p ex lx :
  -149 <= Z.pos (digits2_pos p) + ex - 24 →
  ex + 1 <= 104 →
  Z.pos (digits2_pos p) + ex - 23 <= 104 →
  ∃ m e, binary_round_aux float_prec float_emax sx (Z.pos p) ex lx = S754_finite sx m e.
Proof.
  intros Hlo Hex Hhi. unfold binary_round_aux.
  set (d := Z.pos (digits2_pos p)) in *.
  destruct (digits2_pos_bounds p) as [Hdlo Hdhi]. fold d in Hdlo, Hdhi.
  assert (1 <= d) as Hd1 by (unfold d; lia).
  destruct (shr_fexp_spec (Z.pos p) ex lx) as [Hm1 He1]; [lia|].
  destruct (shr_fexp float_prec float_emax (Z.pos p) ex lx) as [mrs1 e1].
  cbn [fst snd] in Hm1, He1. cbn [Zdigits2] in Hm1, He1. fold d in Hm1, He1.
  assert (fexp float_prec float_emax (d + ex) = d + ex - 24) as Hf.
  { unfold fexp, emin, float_prec, float_emax. lia. }
  rewrite Hf in Hm1, He1.
  set (k := Z.max 0 (d + ex - 24 - ex)) in *.
  assert (0 < 2 ^ k) as Hpk by (apply Z.pow_pos_nonneg; lia).
  (* the first shift leaves between 1 and 24 digits *)
  assert (2 ^ (d - k - 1) <= shr_m mrs1 < 2 ^ (d - k)) as [Hm1lo Hm1hi].
  { rewrite Hm1. split.
    - apply Z.div_le_lower_bound; [lia|].
      rewrite <- Z.pow_add_r by lia. by replace (k + (d - k - 1)) with (d - 1) by lia.
    - apply Z.div_lt_upper_bound; [lia|].
      rewrite <- Z.pow_add_r by lia. by replace (k + (d - k)) with d by lia. }
  assert (0 < 2 ^ (d - k - 1)) as Hp1 by (apply Z.pow_pos_nonneg; lia).
  pose proof (round_nearest_even_bounds (shr_m mrs1) (loc_of_shr_record mrs1)) as Hr.
  set (m2 := round_nearest_even (shr_m mrs1) (loc_of_shr_record mrs1)) in *.
  destruct m2 as [|p2|p2] eqn:Hm2; [lia| |lia].
  set (d2 := Z.pos (digits2_pos p2)).
  assert (d - k <= d2 <= d - k + 1) as Hd2.
  { split.
    - pose proof (digits_ge_of_le p2 (d - k - 1)). lia.
    - apply digits_le_of_lt; [lia|].
      rewrite Z.pow_add_r, Z.pow_1_r by lia. lia. }
  destruct (shr_fexp_spec (Z.pos p2) e1 loc_Exact) as [Hm3 He3]; [lia|].
  destruct (shr_fexp float_prec float_emax (Z.pos p2) e1 loc_Exact) as [mrs3 e3].
  cbn [fst snd] in Hm3, He3. cbn [Zdigits2] in Hm3, He3. fold d2 in Hm3, He3.
  assert (fexp float_prec float_emax (d2 + e1) = d2 + e1 - 24) as Hf2.
  { unfold fexp, emin, float_prec, float_emax. lia. }
  rewrite Hf2 in Hm3, He3.
  set (k2 := Z.max 0 (d2 + e1 - 24 - e1)) in *.
  assert (0 <= k2 <= 1) as Hk2 by lia.
  destruct (digits2_pos_bounds p2) as [Hp2lo _]. fold d2 in Hp2lo.
  assert (0 < shr_m mrs3) as H3.
  { rewrite Hm3. destruct (decide (k2 = 0)) as [->|Hne].
    - rewrite Z.pow_0_r, Z.div_1_r. lia.
    - replace k2 with 1 by lia. rewrite Z.pow_1_r.
      assert (2 ^ 1 <= 2 ^ (d2 - 1)) by (apply Z.pow_le_mono_r; lia).
      apply Z.div_str_pos. lia. }
  destruct (shr_m mrs3) as [|p3|p3]; [lia| |lia].
  assert ((e3 <=? float_emax - float_prec) = true) as ->.
  { apply Z.leb_le. unfold float_emax, float_prec. lia. }
  by eexists _, _.
Qed.

(** [float(n)] of a positive [size_t] is a finite positive number. *)
Lemma float_of_Z_finite n :
  0 < n < 2 ^ 64 → ∃ m e, float_of_Z n = S754_finite false m e.
Proof.
  intros Hn. destruct n as [|p|p]; [lia| |lia].
  unfold float_of_Z, binary_normalize, binary_round.
  assert (Z.pos (digits2_pos p) <= 64) as Hd by (apply digits_le_of_lt; lia).
  set (d := Z.pos (digits2_pos p)) in *.
  assert (1 <= d) as Hd1 by (unfold d; lia).
  assert (fexp float_prec float_emax (d + 0) = d - 24) as ->.
  { unfold fexp, emin, float_prec, float_emax. lia. }
  unfold shl_align. destruct (d - 24 - 0) as [|k|k] eqn:Hk.
  - apply binary_round_aux_finite; fold d; lia.
  - apply binary_round_aux_finite; fold d; lia.
  - apply binary_round_aux_finite; rewrite ?digits2_pos_iter_xO; fold d; lia.
Qed.

Lemma float_of_Z_shape n :
  0 <= n < 2 ^ 64 →
  float_of_Z n = S754_zero false ∨ ∃ m e, float_of_Z n = S754_finite false m e.
Proof.
  intros Hn. destruct (decide (n = 0)) as [->|Hne]; [by left|].
  right. apply float_of_Z_finite. lia.
Qed.

Lemma float_div_nonneg a b :
  0 <= a → 0 < b < 2 ^ 64 → a < 2 ^ 64 →
  float_nonneg (float_div (float_of_Z a) (float_of_Z b)).
Proof.
  intros Ha Hb Ha'. destruct (float_of_Z_finite b Hb) as (mb & eb & ->).
  destruct (float_of_Z_shape a) as [->|(ma & ea & ->)]; [lia|done|].
  unfold float_div, SFdiv. cbn [xorb].
  destruct (SFdiv_core_binary float_prec float_emax (Z.pos ma) ea (Z.pos mb) eb)
    as [[q e'] l] eqn:Hcore.
  assert (0 <= q) as Hq.
  { unfold SFdiv_core_binary in Hcore.
    set (s := ea - eb - _) in Hcore.
    set (m' := match s with Z.pos _ => Z.shiftl (Z.pos ma) s | 0 => Z.pos ma | Z.neg _ => 0 end) in Hcore.
    assert (0 <= m') as Hm'.
    { unfold m'. destruct s; [lia| |lia]. by apply Z.shiftl_nonneg. }
    pose proof (Z_div_mod m' (Z.pos mb) eq_refl) as Hdm.
    destruct (Z.div_eucl m' (Z.pos mb)) as [q0 r0]. injection Hcore as <- _ _.
    nia. }
  pose proof (binary_round_aux_shape false q e' l Hq) as Hs.
  destruct (binary_round_aux float_prec float_emax false q e' l) as [s|s| |s m e];
    simpl; subst; done.
Qed.

(** [SFcompare] is the lexicographic order of the keys. *)
Lemma SFcompare_key a b :
  ¬ float_is_nan a → ¬ float_is_nan b →
  ∃ c, SFcompare a b = Some c
       ∧ (c = Lt ↔ key_lt (float_key a) (float_key b))
       ∧ (c = Gt ↔ key_lt (float_key b) (float_key a)).
Proof.
  intros Ha Hb. unfold SFcompare, key_lt.
  destruct a as [sa|sa| |sa ma ea], b as [sb|sb| |sb mb eb];
    try (exfalso; by (apply Ha || apply Hb));
    try destruct sa; try destruct sb; cbn [float_key fst snd];
    try (eexists; split; [reflexivity|]; split; split; (discriminate || lia || done)).
  - rewrite Pos.compare_cont_spec. cbn [Pos.switch_Eq].
    change (Pos.compare ma mb) with (Z.compare (Z.pos ma) (Z.pos mb)).
    eexists; split; [reflexivity|].
    destruct (Z.compare_spec ea eb) as [He|He|He];
      [destruct (Z.compare_spec (Z.pos ma) (Z.pos mb))|..]; cbn [CompOpp];
      split; split; (discriminate || lia || done).
  - rewrite Pos.compare_cont_spec. cbn [Pos.switch_Eq].
    change (Pos.compare ma mb) with (Z.compare (Z.pos ma) (Z.pos mb)).
    eexists; split; [reflexivity|].
    destruct (Z.compare_spec ea eb) as [He|He|He];
      [destruct (Z.compare_spec (Z.pos ma) (Z.pos mb))|..]; cbn [CompOpp];
      split; split; (discriminate || lia || done).
Qed.

Lemma float_gt_key a b :
  ¬ float_is_nan a → ¬ float_is_nan b →
  (float_gt a b = true ↔ key_lt (float_key b) (float_key a)).
Proof.
  intros Ha Hb. destruct (SFcompare_key b a Hb Ha) as (c & Hc & Hlt & _).
  unfold float_gt, SFltb. rewrite Hc, <- Hlt. by destruct c.
Qed.

Lemma float_ge_key a b :
  ¬ float_is_nan a → ¬ float_is_nan b →
  (float_ge a b = true ↔ ¬ key_lt (float_key a) (float_key b)).
Proof.
  intros Ha Hb. destruct (SFcompare_key b a Hb Ha) as (c & Hc & _ & Hgt).
  unfold float_ge, SFleb. rewrite Hc, <- Hgt. by destruct c.
Qed.

Lemma float_nonneg_not_nan x : float_nonneg x → ¬ float_is_nan x.
Proof. intros H1 H2. by destruct x. Qed.

Lemma float_gt_minus_one x : float_nonneg x → float_gt x float_minus_one = true.
Proof. by destruct x as [|[]| |[]]. Qed.

End Float.

(* ------------------------------------------------------------------ *)
(** ** The scan of the pending tasks *)


Section Scan.

Variables (w : World) (haveResources : gset string).

Local Abbreviation el := (eligible w haveResources).
Local Abbreviation sc := (task_score w haveResources).

Lemma matchReq_eligible p :
  matchReq haveResources (m_schedule (deref w p)) = true ↔ el p.
Proof.
  unfold matchReq, eligible. rewrite forallb_forall. split.
  - intros H res Hres. eapply bool_decide_eq_true_1, H.
    by apply list_elem_of_In.
  - intros H res Hres. apply bool_decide_eq_true_2, H.
    by apply list_elem_of_In.
Qed.

Lemma score_nonneg s : schedule_in_range s → float_nonneg (score haveResources s).
Proof.
  unfold schedule_in_range, score, matchCount. intros Hr.
  destruct (0 <? length (optionalResources s))%nat eqn:Hlen; [|done].
  apply Nat.ltb_lt in Hlen.
  pose proof (length_filter (λ res, res ∈ haveResources) (optionalResources s)) as Hf.
  apply float_div_nonneg; lia.
Qed.

Section Order.

Variables a b c : spec_float.
Hypotheses (Ha : ¬ float_is_nan a) (Hb : ¬ float_is_nan b) (Hc : ¬ float_is_nan c).

Lemma float_gt_false_key : float_gt a b = false ↔ ¬ key_lt (float_key b) (float_key a).
Proof. rewrite <- float_gt_key by done. by destruct (float_gt a b). Qed.

Lemma float_ge_false_key : float_ge a b = false ↔ key_lt (float_key a) (float_key b).
Proof.
  pose proof (float_ge_key a b Ha Hb) as H.
  destruct (float_ge a b).
  - split; [done|]. intros Hk. by apply H in Hk.
  - split; [|done]. intros _.
    destruct (float_key a) as [[a1 a2] a3], (float_key b) as [[b1 b2] b3].
    unfold key_lt in *. simpl in *.
    assert (¬ ¬ (a1 < b1 ∨ a1 = b1 ∧ (a2 < b2 ∨ a2 = b2 ∧ a3 < b3))) as Hnn
      by (intros Hn; by apply H in Hn).
    lia.
Qed.

End Order.

Ltac to_keys :=
  repeat match goal with
  | H : float_gt _ _ = true |- _ => apply float_gt_key in H; [|assumption..]
  | H : float_gt _ _ = false |- _ => apply float_gt_false_key in H; [|assumption..]
  | H : float_ge _ _ = false |- _ => apply float_ge_false_key in H; [|assumption..]
  | |- float_gt _ _ = true => apply float_gt_key; [assumption..|]
  | |- float_ge _ _ = false => apply float_ge_false_key; [assumption..|]
  end;
  unfold key_lt in *;
  repeat match goal with
  | |- context [float_key ?x] =>
      let k1 := fresh "k" in let k2 := fresh "k" in let k3 := fresh "k" in
      destruct (float_key x) as [[k1 k2] k3]
  | H : context [float_key ?x] |- _ =>
      let k1 := fresh "k" in let k2 := fresh "k" in let k3 := fresh "k" in
      destruct (float_key x) as [[k1 k2] k3]
  end;
  simpl in *; lia.

Lemma float_gt_trans a b c :
  ¬ float_is_nan a → ¬ float_is_nan b → ¬ float_is_nan c →
  float_gt a b = true → float_gt b c = true → float_gt a c = true.
Proof. intros Ha Hb Hc H1 H2. to_keys. Qed.

Lemma float_gt_le_trans a b c :
  ¬ float_is_nan a → ¬ float_is_nan b → ¬ float_is_nan c →
  float_gt a b = true → float_gt c b = false → float_gt a c = true.
Proof. intros Ha Hb Hc H1 H2. to_keys. Qed.

Lemma float_lt_below a b k :
  ¬ float_is_nan a → ¬ float_is_nan b → ¬ float_is_nan k →
  float_gt b a = true → float_ge b k = false → float_ge a k = false.
Proof. intros Ha Hb Hk H1 H2. to_keys. Qed.

Lemma float_le_below a b k :
  ¬ float_is_nan a → ¬ float_is_nan b → ¬ float_is_nan k →
  float_gt a b = false → float_ge b k = false → float_ge a k = false.
Proof. intros Ha Hb Hk H1 H2. to_keys. Qed.



Lemma float_0_999_not_nan : ¬ float_is_nan float_0_999.
Proof. by intros []. Qed.

Lemma scan_spec rest :
  ∀ seen readyTask bestScore,
    (∀ p, p ∈ seen ++ rest → schedule_in_range (m_schedule (deref w p))) →
    scan_inv w haveResources seen readyTask bestScore →
    scan_post w haveResources (seen ++ rest)
      (takeTaskToRun_scan w haveResources rest readyTask bestScore).1
      (takeTaskToRun_scan w haveResources rest readyTask bestScore).2.
Proof.
  assert (Hnn : ∀ p, schedule_in_range (m_schedule (deref w p)) → ¬ float_is_nan (sc p)).
  { intros p Hp. apply float_nonneg_not_nan. by apply score_nonneg. }
  pose proof float_0_999_not_nan as Hk.
  induction rest as [|u rest IH]; intros seen ready best Hrange Hinv.
  - (* the loop is over *)
    rewrite app_nil_r in *. cbn [takeTaskToRun_scan fst snd].
    destruct ready as [t|]; [|by destruct Hinv].
    destruct Hinv as (pre & post & -> & Het & -> & Hlow & Hpre & Hpost).
    assert (¬ float_is_nan (sc t)) as Hnt by (apply Hnn, Hrange; set_solver).
    exists pre, post. split_and!; try done.
    + intros p Hp Hel. split; [by apply Hpre|].
      apply (float_lt_below _ (sc t)); try done; [|by apply Hpre].
      apply Hnn, Hrange. set_solver.
    + right. intros p Hp Hel. split; [by apply Hpost|].
      apply (float_le_below _ (sc t)); try done; [|by apply Hpost].
      apply Hnn, Hrange. set_solver.
  - (* one more task [u] *)
    assert (seen ++ u :: rest = (seen ++ [u]) ++ rest) as Happ by by rewrite <- app_assoc.
    assert (¬ float_is_nan (sc u)) as Hnu by (apply Hnn, Hrange; set_solver).
    cbn [takeTaskToRun_scan].
    destruct (matchReq haveResources (m_schedule (deref w u))) eqn:Hreq.
    + apply matchReq_eligible in Hreq.
      fold (sc u).
      (* the eligible tasks seen so far are all strictly below a new best *)
      assert (float_gt (sc u) best = true →
              ∀ p, p ∈ seen → el p →
                float_gt (sc u) (sc p) = true
                ∧ float_ge (sc p) float_0_999 = false) as Hbelow.
      { intros Hgt p Hp Hel. destruct ready as [t|].
        - destruct Hinv as (pre & post & -> & Het & -> & Hlow & Hpre & Hpost).
          assert (¬ float_is_nan (sc t)) as Hnt by (apply Hnn, Hrange; set_solver).
          assert (¬ float_is_nan (sc p)) as Hnp by (apply Hnn, Hrange; set_solver).
          apply elem_of_app in Hp as [Hp|Hp]; [|apply elem_of_cons in Hp as [->|Hp]].
          + split.
            * apply (float_gt_trans _ (sc t)); try done. by apply Hpre.
            * apply (float_lt_below _ (sc t)); try done. by apply Hpre.
          + done.
          + split.
            * apply (float_gt_le_trans _ (sc t)); try done. by apply Hpost.
            * apply (float_le_below _ (sc t)); try done. by apply Hpost.
        - destruct Hinv as [_ Hnone]. by destruct (Hnone p Hp). }
      destruct (float_gt (sc u) best) eqn:Hgt.
      * specialize (Hbelow eq_refl).
        destruct (float_ge (sc u) float_0_999) eqn:Hge.
        -- (* break *)
           cbn [fst snd]. exists seen, rest. split_and!; try done. by left.
        -- rewrite Happ. apply IH; [by rewrite <- Happ|].
           exists seen, []. split_and!; try done.
           ++ intros p Hp Hel. by apply Hbelow.
           ++ intros p Hp. by apply elem_of_nil in Hp.
      * rewrite Happ. apply IH; [by rewrite <- Happ|].
        destruct ready as [t|].
        -- destruct Hinv as (pre & post & -> & Het & -> & Hlow & Hpre & Hpost).
           exists pre, (post ++ [u]). split_and!; try done.
           ++ by rewrite <- app_assoc.
           ++ intros p Hp Hel. apply elem_of_app in Hp as [Hp|Hp]; [by apply Hpost|].
              apply list_elem_of_singleton in Hp as ->. done.
        -- destruct Hinv as [-> _].
           rewrite float_gt_minus_one in Hgt; [done|].
           apply score_nonneg, Hrange. set_solver.
    + rewrite Happ. apply IH; [by rewrite <- Happ|].
      assert (¬ el u) as Hnel.
      { intros Hel. apply matchReq_eligible in Hel. congruence. }
      destruct ready as [t|].
      * destruct Hinv as (pre & post & -> & Het & -> & Hlow & Hpre & Hpost).
        exists pre, (post ++ [u]). split_and!; try done.
        -- by rewrite <- app_assoc.
        -- intros p Hp Hel. apply elem_of_app in Hp as [Hp|Hp]; [by apply Hpost|].
           apply list_elem_of_singleton in Hp as ->. done.
      * destruct Hinv as [-> Hnone]. split; [done|].
        intros p Hp. apply elem_of_app in Hp as [Hp|Hp]; [by apply Hnone|].
        apply list_elem_of_singleton in Hp as ->. done.
Qed.

End Scan.

Section Dispatch.

Implicit Types (w : World) (p : N).

(** A task that has left the pending set never re-enters it. *)
Lemma exec_not_pending op w w' p :
  is_Some (heap w !! p) → p ∉ m_pendingTasks (db w) → exec op w = Some w' →
  is_Some (heap w' !! p) ∧ p ∉ m_pendingTasks (db w').
Proof.
  intros Hp Hn.
  destruct op as [info now addr samples|have now|q now|q|q|T now|states]; simpl.
  - destruct (heap w !! addr) eqn:Hfresh; [done|]. unfold createTask.
    destruct (getUnusedTaskID w samples); [|done..]. intros [= <-]. simpl.
    assert (addr ≠ p) as Hne.
    { intros ->. rewrite Hfresh in Hp. by destruct Hp. }
    split; [by rewrite lookup_insert_ne|]. set_solver.
  - intros [= <-]. unfold takeTaskToRun.
    destruct (takeTaskToRun_scan _ _ _ _ _).1 as [t|]; [|done]. simpl. split.
    + destruct (decide (t = p)) as [->|Hne]; [by rewrite lookup_insert_eq|].
      by rewrite lookup_insert_ne.
    + set_solver.
  - destruct (is_live w q); [|done]. intros [= <-]. simpl. split; [|done].
    destruct (decide (q = p)) as [->|Hne]; [by rewrite lookup_insert_eq|].
    by rewrite lookup_insert_ne.
  - destruct (is_live w q); [|done]. intros [= <-]. simpl. split; [done|]. set_solver.
  - destruct (is_live w q); [|done]. intros [= <-].
    unfold markTaskShouldCancel, Task_markShouldCancel.
    destruct (runStatus (m_status (deref w q))); simpl.
    + split; [|done].
      destruct (decide (q = p)) as [->|Hne]; [by rewrite lookup_insert_eq|].
      by rewrite lookup_insert_ne.
    + split; [done|]. set_solver.
  - unfold cleanupZombieTasks.
    generalize (entries (m_allTasksByID (db w))). intros items.
    revert w Hp Hn. induction items as [|item rest IH]; intros w Hp Hn; simpl.
    + by intros [= <-].
    + destruct (m_allTasksByID (db w) !! item.1) as [task|]; [|by apply IH].
      destruct (m_allTasksByID (db (cleanupIfZombieTask task T now w).2) !! item.1);
        [|done].
      apply IH.
      * by rewrite cleanupIfZombieTask_heap.
      * unfold cleanupIfZombieTask.
        destruct (match runStatus _ with Some _ => _ | None => _ end); simpl; [|done].
        set_solver.
  - by intros [= <-].
Qed.

Lemma run_not_pending ops w w' p :
  is_Some (heap w !! p) → p ∉ m_pendingTasks (db w) → run ops w = Some w' →
  p ∉ m_pendingTasks (db w').
Proof.
  revert w. induction ops as [|op ops IH]; intros w Hp Hn; simpl.
  - by intros [= <-].
  - destruct (exec op w) as [w1|] eqn:Hex; [|done].
    destruct (exec_not_pending op w w1 p Hp Hn Hex) as [Hp1 Hn1]. by apply IH.
Qed.

Lemma takeTaskToRun_result_pending w have now p :
  (takeTaskToRun have now w).1 = Some p → p ∈ m_pendingTasks (db w).
Proof.
  destruct (takeTaskToRun have now w) as [r w'] eqn:E. simpl. intros ->.
  by eapply takeTaskToRun_pending.
Qed.

End Dispatch.

(** C2, as stated, fails: with the pending tasks A (1001 optional
    resources, the worker has 1000 of them) and B (one optional resource,
    which the worker has), A first in iteration order, [takeTaskToRun]
    returns A although the eligible task B has the greater score. *)
Lemma takeTaskToRun_not_maximal :
  (takeTaskToRun {["x"]} 101 near_perfect_first).1 = Some 1%N
  ∧ 2%N ∈ m_pendingTasks (db near_perfect_first)
  ∧ eligible near_perfect_first {["x"]} 2%N
  ∧ float_gt (task_score near_perfect_first {["x"]} 2%N)
             (task_score near_perfect_first {["x"]} 1%N) = true.
Proof.
  split_and!.
  - vm_compute. reflexivity.
  - apply members_elem_of.
    assert (members (m_pendingTasks (db near_perfect_first)) = [1%N; 2%N]) as ->
      by (vm_compute; reflexivity).
    do 2 constructor.
  - apply matchReq_eligible. vm_compute. reflexivity.
  - vm_compute. reflexivity.
Qed.

(** C2 (amended). For every worker resource set and every consistent
    database whose pending schedules are in range, [takeTaskToRun] returns
    nothing iff no pending task is eligible.  Otherwise it returns an
    eligible pending task [t] such that every eligible task before it in
    iteration order has a strictly smaller score, itself below 0.999, and
    either the score of [t] is at least 0.999 (the search stopped there) or
    no eligible task after it has a greater score or reaches 0.999.  On
    return [t] is out of the pending set and running ([runStatus] present,
    [wasCanceled] false, both times [now]), the counters have moved one unit
    from pending to running, and no later call returns [t] again. *)
Theorem takeTaskToRun_dispatch (haveResources : gset string) (now : Z) (w : World) :
  consistent w →
  (∀ p, p ∈ m_pendingTasks (db w) → schedule_in_range (m_schedule (deref w p))) →
  let result := takeTaskToRun haveResources now w in
  let w' := result.2 in
  (result.1 = None ↔ ∀ p, p ∈ m_pendingTasks (db w) → ¬ eligible w haveResources p)
  ∧ match result.1 with
    | None => w' = w
    | Some t =>
        scan_post w haveResources (members (m_pendingTasks (db w))) (Some t)
          (task_score w haveResources t)
        ∧ t ∈ m_pendingTasks (db w)
        ∧ m_pendingTasks (db w') = m_pendingTasks (db w) ∖ {[t]}
        ∧ runStatus (m_status (deref w' t)) = Some (mkTaskRunStatus false now now)
        ∧ getState (m_status (deref w' t)) = Running
        ∧ live w' t
        ∧ numPending (m_stats (db w')) = numPending (m_stats (db w)) - 1
        ∧ numRunning (m_stats (db w')) = numRunning (m_stats (db w)) + 1
        ∧ ∀ ops w2 haveResources' now',
            run ops w' = Some w2 →
            (takeTaskToRun haveResources' now' w2).1 ≠ Some t
    end.
Proof.
  intros Hc Hrange. simpl.
  pose proof (scan_spec w haveResources (members (m_pendingTasks (db w))) []
                None float_minus_one) as Hscan.
  rewrite app_nil_l in Hscan.
  specialize (Hscan (λ p Hp, Hrange p (proj1 (members_elem_of _ p) Hp))
                    (conj eq_refl (λ p Hp, False_rect _ (proj1 (elem_of_nil p) Hp)))).
  pose proof (takeTaskToRun_result_pending w haveResources now) as Hpend.
  unfold takeTaskToRun in *.
  destruct (takeTaskToRun_scan w haveResources (members (m_pendingTasks (db w)))
              None float_minus_one) as [[t|] b]; cbn [fst snd] in *.
  - destruct Hscan as (pre & post & HL & Het & -> & Hpre & Hpost).
    specialize (Hpend t eq_refl).
    destruct Hc as [[Hobj Hpending] Hs].
    destruct (proj1 (Hpending t) Hpend) as (tt & Htt & Hlt & Hnone).
    split.
    + split; [done|]. intros Hno. by destruct (Hno t Hpend).
    + split_and!; try done.
      * by exists pre, post.
      * unfold deref. simpl. rewrite lookup_total_insert_eq.
        fold (deref w t). rewrite (deref_lookup w t tt Htt).
        unfold Task_markStarted. by rewrite Hnone.
      * unfold deref. simpl. rewrite lookup_total_insert_eq.
        fold (deref w t). rewrite (deref_lookup w t tt Htt).
        unfold Task_markStarted, getState. by rewrite Hnone.
      * eexists. simpl. rewrite lookup_insert_eq. split; [done|].
        rewrite (deref_lookup w t tt Htt).
        unfold Task_markStarted. by rewrite Hnone.
      * intros ops w2 have' now' Hrun Hagain.
        apply takeTaskToRun_result_pending in Hagain.
        eapply (run_not_pending ops _ w2 t); [| |done|done].
        -- simpl. by rewrite lookup_insert_eq.
        -- simpl. set_solver.
  - split; [|done]. split; [|done]. intros _ p Hp.
    apply Hscan. by apply members_elem_of.
Qed.

Lemma takeTaskToRun_dispatch_witness :
  getState (m_status (deref (takeTaskToRun {["x"]} 101 near_perfect_first).2 1%N))
  = Running.
Proof.
  assert (consistent near_perfect_first) as Hc.
  { apply (run_consistent
             [ OpCreateTask infoA 100 1%N [7%N]; OpCreateTask infoB 100 2%N [8%N] ]
             World_init near_perfect_first World_init_consistent).
    vm_compute; reflexivity. }
  assert (∀ p, p ∈ m_pendingTasks (db near_perfect_first) →
               schedule_in_range (m_schedule (deref near_perfect_first p))) as Hr.
  { intros p Hp.
    assert (p ∈ [1%N; 2%N]) as Hin.
    { apply members_elem_of in Hp. vm_compute in Hp. exact Hp. }
    apply elem_of_cons in Hin as [->|Hin]; [vm_compute; reflexivity|].
    apply list_elem_of_singleton in Hin as ->. vm_compute; reflexivity. }
  pose proof (takeTaskToRun_dispatch {["x"]} 101 near_perfect_first Hc Hr) as H.
  simpl in H. destruct H as [_ H].
  assert ((takeTaskToRun {["x"]} 101 near_perfect_first).1 = Some 1%N) as Hres
    by (vm_compute; reflexivity).
  rewrite Hres in H. destruct H as (_ & _ & _ & _ & H & _). exact H.
Defined.

(* ================================================================== *)
(** * Further properties of the task database *)
(* ================================================================== *)

(** X1. After any sequence of calls from the empty database, every ID in
    the map leads to a task object carrying that very ID, no two IDs share
    a task, a handle is in the pending set exactly when its task is live
    and in the [Pending] state, and the total task count is the sum of the
    three live counters. *)
Theorem database_structure (ops : list Op) (w : World) :
  run ops World_init = Some w →
  (∀ id p, getTaskByID w id = Some p → m_id (deref w p) = id)
  ∧ (∀ id1 id2 p, getTaskByID w id1 = Some p → getTaskByID w id2 = Some p → id1 = id2)
  ∧ (∀ p, p ∈ m_pendingTasks (db w)
          ↔ live w p ∧ getState (m_status (deref w p)) = Pending)
  ∧ getTotalTaskCount w
    = numPending (m_stats (db w)) + numRunning (m_stats (db w))
      + numCanceling (m_stats (db w)).
Proof.
  intros Hrun.
  destruct (run_consistent ops World_init w World_init_consistent Hrun)
    as [[Hobj Hpend] [Hnp Htot Hfin]].
  unfold getTaskByID. split_and!.
  - intros id p Hid. destruct (Hobj id p Hid) as (t & Ht & <-).
    by rewrite (deref_lookup w p t Ht).
  - intros id1 id2 p H1 H2.
    destruct (Hobj id1 p H1) as (t & Ht & <-).
    destruct (Hobj id2 p H2) as (t' & Ht' & <-). by simplify_eq.
  - intros p. rewrite Hpend. split.
    + intros (t & Ht & Hl & Hn). split; [by exists t|].
      rewrite (deref_lookup w p t Ht). unfold getState. by rewrite Hn.
    + intros [(t & Ht & Hl) Hst]. exists t. split_and!; [done..|].
      rewrite (deref_lookup w p t Ht) in Hst. unfold getState in Hst.
      destruct (runStatus (m_status t)) as [rs|]; [|done].
      by destruct (wasCanceled rs).
  - unfold getTotalTaskCount. lia.
Qed.

Lemma database_structure_witness :
  getTotalTaskCount after_double_cancel
  = numPending (m_stats (db after_double_cancel))
    + numRunning (m_stats (db after_double_cancel))
    + numCanceling (m_stats (db after_double_cancel)).
Proof.
  apply (database_structure double_cancel after_double_cancel).
  vm_compute; reflexivity.
Defined.

(** X2. A [createTask] that returns registers the new task under an ID
    that was unused before: the ID now resolves to the returned handle,
    every other ID resolves as before, the task is as constructed (state
    [Pending], the given command and schedule, [createTime] now), it is in
    the pending set, the task count and [numPending] grow by one, and no
    other object or counter changes. *)
Theorem createTask_registers (info : TaskCreateInfo) (now : Z) (addr : N)
    (samples : list N) (w w' : World) (task : N) :
  createTask info now addr samples w = Created task w' →
  task = addr
  ∧ ∃ id,
      getTaskByID w id = None
      ∧ getTaskByID w' id = Some task
      ∧ (∀ id', id' ≠ id → getTaskByID w' id' = getTaskByID w id')
      ∧ deref w' task = Task_new id info now
      ∧ getState (m_status (deref w' task)) = Pending
      ∧ task ∈ m_pendingTasks (db w')
      ∧ getTotalTaskCount w' = getTotalTaskCount w + 1
      ∧ m_stats (db w')
        = mkTaskStats (numPending (m_stats (db w)) + 1) (numRunning (m_stats (db w)))
            (numCanceling (m_stats (db w))) (numFinished (m_stats (db w)))
      ∧ (∀ q, q ≠ task → heap w' !! q = heap w !! q).
Proof.
  unfold createTask.
  destruct (getUnusedTaskID w samples) as [id n| |] eqn:Hid; [|done..].
  apply getUnusedTaskID_found in Hid. intros [= <- <-]. split; [done|].
  exists id. unfold getTaskByID, getTotalTaskCount, deref. simpl.
  split_and!; try done.
  - by rewrite lookup_insert_eq.
  - intros id' Hne. by rewrite lookup_insert_ne.
  - by rewrite lookup_total_insert_eq.
  - by rewrite lookup_total_insert_eq.
  - set_solver.
  - rewrite map_size_insert_None by done. lia.
  - intros q Hq. by rewrite lookup_insert_ne.
Qed.

Lemma createTask_registers_witness :
  ∃ id, getTaskByID World_init id = None
        ∧ getTaskByID (default World_init (run [OpCreateTask info0 100 1%N [7%N]] World_init)) id
          = Some 1%N.
Proof.
  destruct (createTask_registers info0 100 1%N [7%N] World_init
              (default World_init (run [OpCreateTask info0 100 1%N [7%N]] World_init)) 1%N)
    as (_ & id & H1 & H2 & _).
  - vm_compute; reflexivity.
  - by exists id.
Defined.

(** X3. [markTaskFinished] on a live task of a consistent database removes
    it: its ID no longer resolves, the handle is out of the pending set,
    every other ID resolves as before, the task count drops by one,
    [numFinished] counts one more, and exactly the counter of the task's
    derived state drops by one. *)
Theorem markTaskFinished_removes (w : World) (p : N) :
  consistent w → live w p →
  let w' := markTaskFinished p w in
  let id := m_id (deref w p) in
  let st := m_stats (db w) in
  getTaskByID w' id = None
  ∧ (∀ id', id' ≠ id → getTaskByID w' id' = getTaskByID w id')
  ∧ m_pendingTasks (db w') = m_pendingTasks (db w) ∖ {[p]}
  ∧ getTotalTaskCount w' = getTotalTaskCount w - 1
  ∧ heap w' = heap w
  ∧ numFinished (m_stats (db w')) = (numFinished st + 1) mod 2 ^ 64
  ∧ (numPending (m_stats (db w')), numRunning (m_stats (db w')),
     numCanceling (m_stats (db w')))
    = match getState (m_status (deref w p)) with
      | Pending => (numPending st - 1, numRunning st, numCanceling st)
      | Running => (numPending st, numRunning st - 1, numCanceling st)
      | Canceling => (numPending st, numRunning st, numCanceling st - 1)
      end.
Proof.
  intros Hc (t & Ht & Hl). simpl.
  unfold markTaskFinished, getTaskByID, getTotalTaskCount, getState.
  rewrite (deref_lookup w p t Ht). simpl. split_and!; try done.
  - by rewrite lookup_delete_eq.
  - intros id' Hne. by rewrite lookup_delete_ne.
  - rewrite map_size_delete_Some by eauto.
    assert (size (m_allTasksByID (db w)) ≠ 0%nat).
    { intros H0. apply map_size_empty_inv in H0. rewrite H0 in Hl.
      by rewrite lookup_empty in Hl. }
    lia.
  - by destruct (runStatus (m_status t)) as [[[] ? ?]|].
  - by destruct (runStatus (m_status t)) as [[[] ? ?]|].
Qed.

Lemma markTaskFinished_removes_witness :
  getTaskByID (markTaskFinished 2%N two_tasks) 8%N = None.
Proof.
  assert (m_id (deref two_tasks 2%N) = 8%N) as <- by (vm_compute; reflexivity).
  apply (markTaskFinished_removes two_tasks 2%N).
  - apply (run_consistent
             [ OpCreateTask info0 100 1%N [7%N];
               OpCreateTask info0 100 2%N [8%N];
               OpTakeTaskToRun ∅ 101 ] World_init two_tasks World_init_consistent).
    vm_compute; reflexivity.
  - apply is_live_spec. vm_compute; reflexivity.
Defined.

Lemma markTaskFinished_counter_sum (w : World) (p : N) :
  numPending (m_stats (db (markTaskFinished p w)))
  + numRunning (m_stats (db (markTaskFinished p w)))
  + numCanceling (m_stats (db (markTaskFinished p w)))
  = numPending (m_stats (db w)) + numRunning (m_stats (db w))
    + numCanceling (m_stats (db w)) - 1.
Proof.
  unfold markTaskFinished.
  destruct (runStatus (m_status (deref w p))) as [[[] ? ?]|]; simpl; lia.
Qed.

Lemma markTaskFinished_numFinished (w : World) (p : N) :
  numFinished (m_stats (db (markTaskFinished p w)))
  = (numFinished (m_stats (db w)) + 1) mod 2 ^ 64.
Proof.
  unfold markTaskFinished.
  by destruct (runStatus (m_status (deref w p))) as [[[] ? ?]|].
Qed.

(** X4. [markTaskFinished] is not idempotent: a second call on the same
    handle finds nothing left to remove from the map and the pending set,
    yet it decrements a live counter and increments [numFinished] once
    more, so the counters no longer add up to the task count. *)
Theorem markTaskFinished_twice (w : World) (p : N) :
  consistent w → live w p →
  let w1 := markTaskFinished p w in
  let w2 := markTaskFinished p w1 in
  m_allTasksByID (db w2) = m_allTasksByID (db w1)
  ∧ m_pendingTasks (db w2) = m_pendingTasks (db w1)
  ∧ numPending (m_stats (db w2)) + numRunning (m_stats (db w2))
    + numCanceling (m_stats (db w2)) = getTotalTaskCount w2 - 1
  ∧ numFinished (m_stats (db w2)) = (numFinished (m_stats (db w)) + 2) mod 2 ^ 64
  ∧ ¬ consistent w2.
Proof.
  intros Hc Hlive w1 w2. subst w2. pose proof Hlive as (t & Ht & Hl).
  pose proof (markTaskFinished_consistent w p Hc Hlive) as [Hh1 [Hnp1 Htot1 Hfin1]].
  fold w1 in Hh1, Hnp1, Htot1, Hfin1.
  assert (heap w1 !! p = Some t) as Ht1 by done.
  assert (m_allTasksByID (db w1) !! m_id t = None) as Hgone.
  { unfold w1, markTaskFinished. rewrite (deref_lookup w p t Ht). simpl.
    by rewrite lookup_delete_eq. }
  pose proof (markTaskFinished_counter_sum w1 p) as Hsum.
  assert (Hmap : m_allTasksByID (db (markTaskFinished p w1)) = m_allTasksByID (db w1)).
  { unfold markTaskFinished at 1. rewrite (deref_lookup w1 p t Ht1). simpl.
    by rewrite delete_id. }
  split_and!.
  - done.
  - unfold markTaskFinished at 1. simpl. unfold w1, markTaskFinished. simpl.
    set_solver.
  - unfold getTotalTaskCount. rewrite Hmap, Hsum. lia.
  - rewrite markTaskFinished_numFinished. unfold w1.
    rewrite markTaskFinished_numFinished, Zplus_mod_idemp_l. f_equal. lia.
  - intros [_ [_ Htot2 _]]. rewrite Hsum, Hmap in Htot2. lia.
Qed.

Lemma markTaskFinished_twice_witness :
  ¬ consistent (markTaskFinished 2%N (markTaskFinished 2%N two_tasks)).
Proof.
  apply (markTaskFinished_twice two_tasks 2%N).
  - apply (run_consistent
             [ OpCreateTask info0 100 1%N [7%N];
               OpCreateTask info0 100 2%N [8%N];
               OpTakeTaskToRun ∅ 101 ] World_init two_tasks World_init_consistent).
    vm_compute; reflexivity.
  - apply is_live_spec. vm_compute; reflexivity.
Defined.

(** X5. [markTaskShouldCancel] on a task that is already [Canceling]
    changes no object and no container, but moves one more unit from
    [numRunning] to [numCanceling]: the two counters drift from the number
    of tasks in each state. *)
Theorem markTaskShouldCancel_again (w : World) (p : N) (t : Task) :
  heap w !! p = Some t →
  getState (m_status t) = Canceling →
  let w' := markTaskShouldCancel p w in
  heap w' = heap w
  ∧ m_allTasksByID (db w') = m_allTasksByID (db w)
  ∧ m_pendingTasks (db w') = m_pendingTasks (db w)
  ∧ trace w' = trace w
  ∧ m_stats (db w')
    = mkTaskStats (numPending (m_stats (db w))) (numRunning (m_stats (db w)) - 1)
        (numCanceling (m_stats (db w)) + 1) (numFinished (m_stats (db w))).
Proof.
  intros Ht Hst. simpl. unfold markTaskShouldCancel, Task_markShouldCancel.
  rewrite (deref_lookup w p t Ht). unfold getState in Hst.
  destruct (runStatus (m_status t)) as [rs|] eqn:Hrs; [|done].
  destruct (wasCanceled rs) eqn:Hcan; [|done]. simpl.
  split_and!; try done.
  apply insert_id. rewrite Ht. f_equal.
  destruct t as [i c s [ct r]]. simpl in *. subst r.
  destruct rs as [wc st hb]. simpl in *. by subst wc.
Qed.

Lemma markTaskShouldCancel_again_witness :
  m_stats (db (markTaskShouldCancel 1%N canceling_world)) = mkTaskStats 0 (-1) 2 0.
Proof.
  destruct (markTaskShouldCancel_again canceling_world 1%N (deref canceling_world 1%N))
    as (_ & _ & _ & _ & H).
  - vm_compute; reflexivity.
  - vm_compute; reflexivity.
  - rewrite H. vm_compute; reflexivity.
Defined.

(* ================================================================== *)
(** * Lifetime of a task *)
(* ================================================================== *)

Section Lifetime.

Implicit Types (w : World) (p q : N) (t : Task).

Lemma task_evolves_refl t : task_evolves t t.
Proof. unfold task_evolves. split_and!; try done. intros rs Hrs. by exists rs. Qed.

Lemma task_evolves_trans t1 t2 t3 :
  task_evolves t1 t2 → task_evolves t2 t3 → task_evolves t1 t3.
Proof.
  intros (Hi & Hc & Hs & Ht & Hr) (Hi' & Hc' & Hs' & Ht' & Hr').
  unfold task_evolves. split_and!; try congruence.
  intros rs Hrs. destruct (Hr rs Hrs) as (rs2 & Hrs2 & Hst).
  destruct (Hr' rs2 Hrs2) as (rs3 & Hrs3 & Hst'). exists rs3. split; congruence.
Qed.

Lemma Task_markStarted_evolves now t : task_evolves t (Task_markStarted now t).
Proof.
  unfold Task_markStarted. destruct (runStatus (m_status t)) eqn:E.
  - apply task_evolves_refl.
  - unfold task_evolves. simpl. split_and!; try done. intros rs Hrs. congruence.
Qed.

Lemma Task_heartbeat_evolves now t : task_evolves t (Task_heartbeat now t).
Proof.
  unfold Task_heartbeat. destruct (runStatus (m_status t)) as [rs|] eqn:E.
  - unfold task_evolves. simpl. split_and!; try done.
    intros rs' ?. simplify_eq. by eexists.
  - apply task_evolves_refl.
Qed.

Lemma Task_markShouldCancel_evolves t : task_evolves t (Task_markShouldCancel t).2.
Proof.
  unfold Task_markShouldCancel. destruct (runStatus (m_status t)) as [rs|] eqn:E.
  - unfold task_evolves. simpl. split_and!; try done.
    intros rs' ?. simplify_eq. by eexists.
  - apply task_evolves_refl.
Qed.

Lemma store_evolves w p q t t' :
  heap w !! p = Some t → (q = p → task_evolves t t') →
  ∃ t2, heap (store q t' w) !! p = Some t2 ∧ task_evolves t t2.
Proof.
  intros Ht Hev. simpl. destruct (decide (q = p)) as [->|Hne].
  - rewrite lookup_insert_eq. exists t'. split; [done|]. by apply Hev.
  - rewrite lookup_insert_ne by done. exists t. split; [done|].
    apply task_evolves_refl.
Qed.

Lemma exec_evolves op w w' p t :
  heap w !! p = Some t → exec op w = Some w' →
  ∃ t', heap w' !! p = Some t' ∧ task_evolves t t'.
Proof.
  intros Ht.
  assert (∀ w0, heap w0 = heap w → ∃ t', heap w0 !! p = Some t' ∧ task_evolves t t') as Hsame.
  { intros w0 ->. exists t. split; [done|]. apply task_evolves_refl. }
  destruct op as [info now addr samples|have now|q now|q|q|T now|states]; simpl.
  - destruct (heap w !! addr) eqn:Hfresh; [done|]. unfold createTask.
    destruct (getUnusedTaskID w samples); [|done..]. intros [= <-]. simpl.
    rewrite lookup_insert_ne by (intros ->; by simplify_eq).
    exists t. split; [done|]. apply task_evolves_refl.
  - intros [= <-]. unfold takeTaskToRun.
    destruct (takeTaskToRun_scan _ _ _ _ _).1 as [q|]; [|by apply Hsame]. simpl.
    apply (store_evolves w p q t _ Ht). intros ->.
    rewrite (deref_lookup w p t Ht). apply Task_markStarted_evolves.
  - destruct (is_live w q); [|done]. intros [= <-]. unfold heartbeatTask.
    apply (store_evolves w p q t _ Ht). intros ->.
    rewrite (deref_lookup w p t Ht). apply Task_heartbeat_evolves.
  - destruct (is_live w q); [|done]. intros [= <-]. by apply Hsame.
  - destruct (is_live w q); [|done]. intros [= <-].
    unfold markTaskShouldCancel.
    pose proof (Task_markShouldCancel_evolves (deref w q)) as Hev.
    destruct (Task_markShouldCancel (deref w q)) as [[] t'] eqn:E; [|by apply Hsame].
    simpl. destruct (decide (q = p)) as [->|Hne].
    + rewrite lookup_insert_eq. exists t'. split; [done|].
      by rewrite (deref_lookup w p t Ht) in Hev.
    + rewrite lookup_insert_ne by done. exists t. split; [done|].
      apply task_evolves_refl.
  - unfold cleanupZombieTasks.
    pose proof (cleanupZombieTasks_loop_heap T now (entries (m_allTasksByID (db w))) w) as H.
    destruct (cleanupZombieTasks_loop _ _ _ _); [|done]. intros [= <-]. by apply Hsame.
  - intros [= <-]. by apply Hsame.
Qed.

(** A clock reading not before [last] keeps the times in order. *)
Lemma times_ordered_later w last now :
  last <= now → times_ordered w last → times_ordered w now.
Proof.
  intros Hle Hto p t Ht. destruct (Hto p t Ht) as [Hc Hrs]. split; [lia|].
  intros rs Hr. specialize (Hrs rs Hr). lia.
Qed.

Lemma times_ordered_same_heap w w' last :
  heap w' = heap w → times_ordered w last → times_ordered w' last.
Proof. intros Hh Hto p t. rewrite Hh. apply Hto. Qed.

Lemma exec_times_ordered op w w' last :
  heap_ok w → times_ordered w last →
  match op_now op with Some now => last <= now | None => True end →
  exec op w = Some w' →
  times_ordered w' (default last (op_now op)).
Proof.
  intros Hok Hto Hnow.
  destruct op as [info now addr samples|have now|q now|q|q|T now|states];
    simpl in *.
  - destruct (heap w !! addr) eqn:Hfresh; [done|]. unfold createTask.
    destruct (getUnusedTaskID w samples); [|done..]. intros [= <-].
    intros p t. simpl. destruct (decide (addr = p)) as [->|Hne].
    + rewrite lookup_insert_eq. intros [= <-]. simpl. split; [lia|done].
    + rewrite lookup_insert_ne by done. intros Ht.
      by apply (times_ordered_later w last now Hnow Hto p t).
  - intros [= <-]. unfold takeTaskToRun.
    destruct (takeTaskToRun_scan _ _ _ _ _).1 as [q|] eqn:Hscan;
      [|by apply (times_ordered_later w last now)].
    apply takeTaskToRun_scan_elem_of in Hscan as [Hq|Hq]; [|done].
    apply members_elem_of, (ok_pending w Hok) in Hq as (tq & Htq & _ & Hnone).
    intros p t. simpl. rewrite (deref_lookup w q tq Htq).
    destruct (decide (q = p)) as [->|Hne].
    + rewrite lookup_insert_eq. intros [= <-].
      destruct (times_ordered_later w last now Hnow Hto p tq Htq) as [Hc _].
      unfold Task_markStarted. rewrite Hnone. simpl. split; [done|].
      intros rs' ?. simplify_eq. simpl. lia.
    + rewrite lookup_insert_ne by done. intros Ht.
      by apply (times_ordered_later w last now Hnow Hto p t).
  - destruct (is_live w q) eqn:Hl; [|done]. intros [= <-].
    apply is_live_spec in Hl as (tq & Htq & _).
    intros p t. simpl. rewrite (deref_lookup w q tq Htq).
    destruct (decide (q = p)) as [->|Hne].
    + rewrite lookup_insert_eq. intros [= <-].
      destruct (times_ordered_later w last now Hnow Hto p tq Htq) as [Hc Hrs].
      unfold Task_heartbeat. destruct (runStatus (m_status tq)) as [rs|] eqn:E.
      * simpl. split; [done|]. intros rs' ?. simplify_eq. simpl.
        specialize (Hrs rs eq_refl). destruct (Hto p tq Htq) as [_ Hold].
        specialize (Hold rs E). lia.
      * split; [done|]. intros rs' Hr. congruence.
    + rewrite lookup_insert_ne by done. intros Ht.
      by apply (times_ordered_later w last now Hnow Hto p t).
  - destruct (is_live w q); [|done]. intros [= <-].
    by apply (times_ordered_same_heap w).
  - destruct (is_live w q) eqn:Hl; [|done]. intros [= <-].
    apply is_live_spec in Hl as (tq & Htq & _).
    unfold markTaskShouldCancel, Task_markShouldCancel.
    rewrite (deref_lookup w q tq Htq).
    destruct (runStatus (m_status tq)) as [rs|] eqn:E;
      [|by apply (times_ordered_same_heap w)].
    intros p t. simpl. destruct (decide (q = p)) as [->|Hne].
    + rewrite lookup_insert_eq. intros [= <-]. simpl.
      destruct (Hto p tq Htq) as [Hc Hrs]. split; [done|].
      intros rs' ?. simplify_eq. simpl. by apply Hrs.
    + rewrite lookup_insert_ne by done. apply Hto.
  - unfold cleanupZombieTasks.
    pose proof (cleanupZombieTasks_loop_heap T now (entries (m_allTasksByID (db w))) w) as H.
    destruct (cleanupZombieTasks_loop _ _ _ _); [|done]. intros [= <-].
    apply (times_ordered_later _ last now Hnow).
    by apply (times_ordered_same_heap w).
  - by intros [= <-].
Qed.

(** A call only ever adds to the trace. *)
Lemma exec_trace op w w' :
  exec op w = Some w' →
  markTaskFinished_calls (trace w) <= markTaskFinished_calls (trace w').
Proof.
  destruct op as [info now addr samples|have now|q now|q|q|T now|states]; simpl.
  - destruct (heap w !! addr); [done|]. unfold createTask.
    destruct (getUnusedTaskID w samples); [|done..]. intros [= <-]. simpl.
    rewrite markTaskFinished_calls_app, markTaskFinished_calls_warnings. lia.
  - intros [= <-]. unfold takeTaskToRun.
    by destruct (takeTaskToRun_scan _ _ _ _ _).1.
  - destruct (is_live w q); [|done]. by intros [= <-].
  - destruct (is_live w q); [|done]. intros [= <-]. simpl.
    rewrite markTaskFinished_calls_app. simpl. lia.
  - destruct (is_live w q); [|done]. intros [= <-].
    unfold markTaskShouldCancel.
    destruct (Task_markShouldCancel (deref w q)) as [[] t']; simpl; [done|].
    rewrite markTaskFinished_calls_app. simpl. lia.
  - unfold cleanupZombieTasks. generalize (entries (m_allTasksByID (db w))).
    intros items. revert w. induction items as [|item rest IH]; intros w; simpl.
    + by intros [= <-].
    + destruct (m_allTasksByID (db w) !! item.1) as [task|]; [|apply IH].
      destruct (m_allTasksByID (db (cleanupIfZombieTask task T now w).2) !! item.1);
        [|done].
      intros Hrest. apply IH in Hrest.
      assert (markTaskFinished_calls (trace w)
              <= markTaskFinished_calls (trace (cleanupIfZombieTask task T now w).2)).
      { unfold cleanupIfZombieTask.
        destruct (match runStatus _ with Some _ => _ | None => _ end); simpl; [|done].
        rewrite markTaskFinished_calls_app. simpl. lia. }
      lia.
  - by intros [= <-].
Qed.

End Lifetime.

(** X6. Nothing a database call does changes the ID, the command, the
    schedule or the creation time of a task object; a task that has been
    dispatched never loses its [runStatus], and its [startTime] never
    changes. *)
Theorem task_fields_are_fixed (ops : list Op) (w w' : World) (p : N) (t : Task) :
  heap w !! p = Some t → run ops w = Some w' →
  ∃ t', heap w' !! p = Some t' ∧ task_evolves t t'.
Proof.
  revert w t. induction ops as [|op ops IH]; intros w t Ht; simpl.
  - intros [= <-]. exists t. split; [done|]. apply task_evolves_refl.
  - destruct (exec op w) as [w1|] eqn:Hex; [|done]. intros Hrun.
    destruct (exec_evolves op w w1 p t Ht Hex) as (t1 & Ht1 & Hev1).
    destruct (IH w1 t1 Ht1 Hrun) as (t' & Ht' & Hev'). exists t'.
    split; [done|]. by eapply task_evolves_trans.
Qed.

Lemma task_fields_are_fixed_witness :
  ∃ t', heap (default World_init (run after_cancel_ops canceled_start)) !! 1%N = Some t'
        ∧ task_evolves (deref canceled_start 1%N) t'.
Proof.
  apply (task_fields_are_fixed after_cancel_ops canceled_start).
  - vm_compute; reflexivity.
  - vm_compute; reflexivity.
Defined.

(** X7. When the clock readings made by a sequence of calls never
    decrease, every task keeps its times in order: [createTime] is not
    after [startTime], [startTime] is not after [heartbeatTime], and none
    is after the last reading. *)
Theorem task_times_are_ordered (ops : list Op) (last : Z) (w w' : World) :
  consistent w → times_ordered w last → clock_monotone last ops →
  run ops w = Some w' →
  times_ordered w' (last_reading last ops).
Proof.
  revert w last. induction ops as [|op ops IH]; intros w last Hc Hto Hmono; simpl.
  - by intros [= <-].
  - destruct (exec op w) as [w1|] eqn:Hex; [|done]. intros Hrun.
    simpl in Hmono.
    apply (IH w1 (default last (op_now op))); [by eapply exec_consistent| | |done].
    + apply (exec_times_ordered op w w1 last (proj1 Hc) Hto); [|done].
      destruct (op_now op); [by destruct Hmono|done].
    + destruct (op_now op); [by destruct Hmono|done].
Qed.

Lemma task_times_are_ordered_witness :
  times_ordered after_double_cancel 103.
Proof.
  apply (task_times_are_ordered double_cancel 0 World_init after_double_cancel).
  - apply World_init_consistent.
  - intros p t Ht. simpl in Ht. by rewrite lookup_empty in Ht.
  - simpl. lia.
  - vm_compute; reflexivity.
Defined.

(** X8. The count of finished tasks never goes down: along any sequence
    of calls on a consistent database, as long as fewer than 2^64 tasks
    have finished, [numFinished] after the calls is at least [numFinished]
    before them. *)
Theorem numFinished_never_decreases (ops : list Op) (w w' : World) :
  consistent w → run ops w = Some w' →
  markTaskFinished_calls (trace w') < 2 ^ 64 →
  numFinished (m_stats (db w)) <= numFinished (m_stats (db w')).
Proof.
  intros Hc Hrun Hlt.
  assert (markTaskFinished_calls (trace w) <= markTaskFinished_calls (trace w')) as Hle.
  { clear Hc Hlt. revert w Hrun. induction ops as [|op ops IH]; intros w; simpl.
    - intros [= <-]. lia.
    - destruct (exec op w) as [w1|] eqn:Hex; [|done]. intros Hrun.
      apply exec_trace in Hex. apply IH in Hrun. lia. }
  pose proof (run_consistent ops w w' Hc Hrun) as [_ [_ _ Hfin']].
  destruct Hc as [_ [_ _ Hfin]]. rewrite Hfin, Hfin'. unfold uint64_modulus.
  pose proof (markTaskFinished_calls_nonneg (trace w)).
  rewrite !Z.mod_small by lia. done.
Qed.

Lemma numFinished_never_decreases_witness :
  numFinished (m_stats (db World_init)) <= numFinished (m_stats (db after_double_cancel)).
Proof.
  apply (numFinished_never_decreases double_cancel World_init after_double_cancel).
  - apply World_init_consistent.
  - vm_compute; reflexivity.
  - vm_compute; reflexivity.
Defined.

(* ================================================================== *)
(** * Listing, reaping and offering *)
(* ================================================================== *)

Section Listing.

Implicit Types (w : World) (p : N).

Lemma length_entries (m : gmap N N) : length (entries m) = size m.
Proof.
  unfold entries. rewrite merge_sort_Permutation. apply length_map_to_list.
Qed.

(** Three properties of which every element has exactly one split a
    list in three. *)
Lemma filter_three_length {A} (P1 P2 P3 : A → Prop)
    `{!∀ x, Decision (P1 x)} `{!∀ x, Decision (P2 x)} `{!∀ x, Decision (P3 x)}
    (l : list A) :
  (∀ x, (P1 x ∧ ¬ P2 x ∧ ¬ P3 x) ∨ (¬ P1 x ∧ P2 x ∧ ¬ P3 x) ∨ (¬ P1 x ∧ ¬ P2 x ∧ P3 x)) →
  (length (filter P1 l) + length (filter P2 l) + length (filter P3 l))%nat = length l.
Proof.
  intros Hone. induction l as [|x l IH]; [done|].
  rewrite !filter_cons.
  destruct (Hone x) as [(?&?&?)|[(?&?&?)|(?&?&?)]];
    repeat case_decide; try done; simpl; lia.
Qed.

Lemma filter_all {A} (P : A → Prop) `{!∀ x, Decision (P x)} (l : list A) :
  (∀ x, P x) → filter P l = l.
Proof.
  intros Hall. induction l as [|x l IH]; [done|].
  rewrite filter_cons, IH. case_decide; [done|]. by pose proof (Hall x).
Qed.

Lemma filter_none {A} (P : A → Prop) `{!∀ x, Decision (P x)} (l : list A) :
  (∀ x, ¬ P x) → filter P l = [].
Proof.
  intros Hno. induction l as [|x l IH]; [done|].
  rewrite filter_cons, IH. case_decide; [|done]. by destruct (Hno x).
Qed.

Lemma key_le_total : Total key_le.
Proof. intros a b. unfold key_le. lia. Qed.

Lemma key_le_trans : Transitive key_le.
Proof. intros a b c. unfold key_le. lia. Qed.

(** The entries of a map come by strictly ascending key. *)
Lemma entries_ascending (m : gmap N N) :
  StronglySorted (λ a b, (a.1 < b.1)%N) (entries m).
Proof.
  assert (NoDup (entries m).*1) as Hnd.
  { unfold entries. rewrite merge_sort_Permutation. apply NoDup_fst_map_to_list. }
  assert (StronglySorted key_le (entries m)) as Hs.
  { unfold entries.
    apply (@StronglySorted_merge_sort _ key_le _ key_le_trans key_le_total). }
  induction Hs as [|a l Hs IH Hall]; [constructor|].
  rewrite fmap_cons in Hnd. apply NoDup_cons in Hnd as [Hna Hnd].
  constructor; [by apply IH|].
  apply Forall_forall. intros b Hb.
  rewrite Forall_forall in Hall. specialize (Hall b Hb). unfold key_le in Hall.
  assert (a.1 ≠ b.1); [|lia].
  intros Heq. apply Hna. rewrite Heq. apply list_elem_of_fmap. by exists b.
Qed.

End Listing.

(** X9. Every live task is in exactly one of the three states: the
    listings for [Pending], for [Running] and for [Canceling] together have
    as many tasks as the database holds, the listing for all three states
    has all of them, and the listing for no state is empty. *)
Theorem getTasksByStates_partition (w : World) :
  Z.of_nat (length (getTasksByStates w {[Pending]}))
  + Z.of_nat (length (getTasksByStates w {[Running]}))
  + Z.of_nat (length (getTasksByStates w {[Canceling]}))
  = getTotalTaskCount w
  ∧ Z.of_nat (length (getTasksByStates w {[Pending; Running; Canceling]}))
    = getTotalTaskCount w
  ∧ getTasksByStates w ∅ = [].
Proof.
  unfold getTasksByStates, getTotalTaskCount. split_and!.
  - rewrite <- !Nat2Z.inj_add. f_equal.
    rewrite filter_three_length; [by rewrite length_map, length_entries|].
    intros p. destruct (getState (m_status (deref w p))); set_solver.
  - rewrite filter_all; [by rewrite length_map, length_entries|].
    intros p. destruct (getState (m_status (deref w p))); set_solver.
  - apply filter_none. set_solver.
Qed.

(** X10. On a consistent database the listing for [Pending] is the
    pending set: the same tasks, as many as [numPending] counts. *)
Theorem getTasksByStates_Pending (w : World) :
  consistent w →
  (∀ p, p ∈ getTasksByStates w {[Pending]} ↔ p ∈ m_pendingTasks (db w))
  ∧ Z.of_nat (length (getTasksByStates w {[Pending]})) = numPending (m_stats (db w)).
Proof.
  intros [Hok Hst].
  assert (∀ p, p ∈ getTasksByStates w {[Pending]} ↔ p ∈ m_pendingTasks (db w)) as Hiff.
  { intros p. rewrite getTasksByStates_elem_of, (ok_pending w Hok). split.
    - intros [[id Hid] Hs]. unfold getTaskByID in Hid.
      destruct (ok_object w Hok id p Hid) as (t & Ht & <-).
      exists t. split_and!; [done..|].
      rewrite (deref_lookup w p t Ht) in Hs. apply elem_of_singleton in Hs.
      unfold getState in Hs. destruct (runStatus (m_status t)) as [rs|]; [|done].
      by destruct (wasCanceled rs).
    - intros (t & Ht & Hl & Hn). split; [by exists (m_id t)|].
      rewrite (deref_lookup w p t Ht). unfold getState. rewrite Hn. set_solver. }
  split; [done|].
  rewrite (ok_numPending w Hst). f_equal.
  unfold size, set_size. simpl.
  apply Permutation_length, NoDup_Permutation.
  - by apply getTasksByStates_NoDup.
  - apply NoDup_elements.
  - intros p. by rewrite Hiff, elem_of_elements.
Qed.

Lemma getTasksByStates_Pending_witness :
  (∀ p, p ∈ getTasksByStates two_tasks {[Pending]} ↔ p ∈ m_pendingTasks (db two_tasks))
  ∧ Z.of_nat (length (getTasksByStates two_tasks {[Pending]}))
    = numPending (m_stats (db two_tasks)).
Proof.
  apply (getTasksByStates_Pending two_tasks).
  apply (run_consistent
           [ OpCreateTask info0 100 1%N [7%N];
             OpCreateTask info0 100 2%N [8%N];
             OpTakeTaskToRun ∅ 101 ] World_init two_tasks World_init_consistent).
  vm_compute; reflexivity.
Defined.

(** X11. The listing comes in ascending order of task ID, the order of
    the map it is read from; in particular no ID occurs twice in it. *)
Theorem getTasksByStates_ascending (w : World) (states : gset TaskState) :
  heap_ok w →
  StronglySorted N.lt (map (λ p, m_id (deref w p)) (getTasksByStates w states)).
Proof.
  intros Hok. unfold getTasksByStates.
  assert (∀ e, e ∈ entries (m_allTasksByID (db w)) → m_id (deref w e.2) = e.1) as Hid.
  { intros [id p] He. apply entries_elem_of in He.
    destruct (ok_object w Hok id p He) as (t & Ht & <-). simpl.
    by rewrite (deref_lookup w p t Ht). }
  pose proof (entries_ascending (m_allTasksByID (db w))) as Hs.
  induction Hs as [|a l Hs IH Hall]; [constructor|].
  rewrite map_cons, filter_cons.
  assert (StronglySorted N.lt
            (map (λ p, m_id (deref w p))
               (filter (λ task, getState (m_status (deref w task)) ∈ states) (map snd l))))
    as IH'.
  { apply IH. intros e He. apply Hid. by right. }
  case_decide; [|done].
  rewrite map_cons. constructor; [done|].
  apply Forall_forall. intros i Hi.
  apply list_elem_of_fmap in Hi as (p & -> & Hp).
  apply list_elem_of_filter in Hp as [_ Hp].
  apply list_elem_of_fmap in Hp as (e & -> & He).
  rewrite Forall_forall in Hall.
  rewrite (Hid a) by by left. rewrite (Hid e) by by right.
  by apply Hall.
Qed.

Lemma getTasksByStates_ascending_witness :
  StronglySorted N.lt
    (map (λ p, m_id (deref two_tasks p))
       (getTasksByStates two_tasks {[Pending; Running]})).
Proof.
  apply (getTasksByStates_ascending two_tasks).
  apply (run_consistent
           [ OpCreateTask info0 100 1%N [7%N];
             OpCreateTask info0 100 2%N [8%N];
             OpTakeTaskToRun ∅ 101 ] World_init two_tasks World_init_consistent).
  vm_compute; reflexivity.
Defined.

Section Reaping.

Implicit Types (w : World) (p : N).



End Reaping.



Section Offer.

Implicit Types (w : World) (p : N).

(** A loop that meets no eligible task keeps what it started with. *)
Lemma takeTaskToRun_scan_none w have tasks readyTask bestScore :
  (∀ p, p ∈ tasks → ¬ eligible w have p) →
  takeTaskToRun_scan w have tasks readyTask bestScore = (readyTask, bestScore).
Proof.
  induction tasks as [|task rest IH]; intros Hno; simpl; [done|].
  destruct (matchReq have (m_schedule (deref w task))) eqn:E.
  - apply matchReq_eligible in E. destruct (Hno task); [by left|done].
  - apply IH. intros p Hp. apply Hno. by right.
Qed.

End Offer.

(** X13. A worker with fewer resources is never offered more: when
    [takeTaskToRun] has nothing for a worker, it has nothing for any worker
    whose resources are among that worker's. *)
Theorem takeTaskToRun_fewer_resources (have have' : gset string) (now now' : Z) (w : World) :
  (∀ p, p ∈ m_pendingTasks (db w) → schedule_in_range (m_schedule (deref w p))) →
  have' ⊆ have →
  (takeTaskToRun have now w).1 = None →
  takeTaskToRun have' now' w = (None, w).
Proof.
  intros Hrange Hsub Hnone.
  pose proof (scan_spec w have (members (m_pendingTasks (db w))) []
                None float_minus_one) as Hscan.
  rewrite app_nil_l in Hscan.
  specialize (Hscan (λ p Hp, Hrange p (proj1 (members_elem_of _ p) Hp))
                    (conj eq_refl (λ p Hp, False_rect _ (proj1 (elem_of_nil p) Hp)))).
  unfold takeTaskToRun in *.
  destruct (takeTaskToRun_scan w have _ None float_minus_one).1 as [t|]; [done|].
  simpl in Hscan.
  rewrite takeTaskToRun_scan_none; [done|].
  intros p Hp Hel. apply (Hscan p Hp). intros res Hres. apply Hsub. by apply Hel.
Qed.

Lemma takeTaskToRun_fewer_resources_witness :
  takeTaskToRun ∅ 7 needs_gpu_cpu = (None, needs_gpu_cpu).
Proof.
  apply (takeTaskToRun_fewer_resources {[ "GPU"%string ]} ∅ 5 7 needs_gpu_cpu).
  - intros p Hp. apply members_elem_of in Hp.
    assert (members (m_pendingTasks (db needs_gpu_cpu)) = [1%N]) as Heq
      by (vm_compute; reflexivity).
    rewrite Heq in Hp. apply list_elem_of_singleton in Hp as ->.
    vm_compute; reflexivity.
  - set_solver.
  - vm_compute; reflexivity.
Defined.

(* ================================================================== *)
(** * Renderings and the command line *)
(* ================================================================== *)

Section Rendering.

Lemma string_app_assoc (s1 s2 s3 : string) : (s1 +:+ s2) +:+ s3 = s1 +:+ (s2 +:+ s3).
Proof.
  induction s1 as [|c s1 IH]; [done|].
  change (String c ((s1 +:+ s2) +:+ s3) = String c (s1 +:+ (s2 +:+ s3))).
  by rewrite IH.
Qed.

Lemma string_app_nil_r (s : string) : s +:+ EmptyString = s.
Proof.
  induction s as [|c s IH]; [done|].
  change (String c (s +:+ EmptyString) = String c s). by rewrite IH.
Qed.

(** The loop of [TaskSchedule::toString] joins the resources with [", "]. *)
Lemma append_resources_concat (resources : list string) (str : string) :
  append_resources resources str = str +:+ String.concat ", " resources.
Proof.
  revert str. induction resources as [|resource rest IH]; intros str.
  - simpl. by rewrite string_app_nil_r.
  - cbn [append_resources]. rewrite IH. destruct rest as [|next rest]; simpl.
    + by rewrite string_app_nil_r.
    + by rewrite !string_app_assoc.
Qed.

Lemma to_int32_small (z : Z) : - 2 ^ 31 <= z < 2 ^ 31 → to_int32 z = z.
Proof. intros Hz. unfold to_int32. rewrite Z.mod_small; lia. Qed.

End Rendering.

(** X14. [TaskSchedule::toString] writes the two resource lists between
    braces, the entries of each separated by a comma and a blank, with no
    separator after the last one and nothing between the braces of an
    empty list. *)
Theorem TaskSchedule_toString_joined (self : TaskSchedule) :
  TaskSchedule_toString self
  = "RequiredResources = {" +:+ String.concat ", " (requiredResources self)
    +:+ "} OptionalResources = {" +:+ String.concat ", " (optionalResources self)
    +:+ "}".
Proof.
  unfold TaskSchedule_toString. rewrite !append_resources_concat.
  rewrite !string_app_assoc. do 2 f_equal.
Qed.

(** X15. For an interval from zero up to (not including) 2^31 days the
    four numbers [intervalToString] prints from are the days, hours,
    minutes and seconds of the interval: they add up to it, and hours,
    minutes and seconds stay below 24, 60 and 60. *)
Theorem intervalToString_parts (interval : Z) :
  0 <= interval < 86400 * 2 ^ 31 →
  let '(days, hours, minutes, seconds) := intervalParts interval in
  interval = 86400 * days + 3600 * hours + 60 * minutes + seconds
  ∧ 0 <= days < 2 ^ 31 ∧ 0 <= hours < 24 ∧ 0 <= minutes < 60 ∧ 0 <= seconds < 60.
Proof.
  intros Hi. unfold intervalParts.
  rewrite to_int32_small by (Z.quot_rem_to_equations; lia).
  Z.quot_rem_to_equations. lia.
Qed.

Lemma intervalToString_parts_witness :
  let '(days, hours, minutes, seconds) := intervalParts 90061 in
  90061 = 86400 * days + 3600 * hours + 60 * minutes + seconds
  ∧ 0 <= days < 2 ^ 31 ∧ 0 <= hours < 24 ∧ 0 <= minutes < 60 ∧ 0 <= seconds < 60.
Proof. apply (intervalToString_parts 90061). lia. Defined.

(** X16. For a negative interval (a clock reading before the time it is
    compared with) [intervalToString] prints the remainder of the seconds
    only, whatever the length of the interval: days, hours and minutes are
    not positive and are left out. *)
Theorem intervalToString_negative (interval : Z) :
  - (86400 * 2 ^ 31) <= interval < 0 →
  intervalToString interval = to_string (Z.rem interval 60) +:+ "s".
Proof.
  intros Hi. unfold intervalToString, intervalParts.
  rewrite to_int32_small by (Z.quot_rem_to_equations; lia).
  rewrite !(proj2 (Z.ltb_ge _ _)) by (Z.quot_rem_to_equations; lia).
  done.
Qed.

Lemma intervalToString_negative_witness :
  intervalToString (-3661) = "-1s"%string.
Proof. apply (intervalToString_negative (-3661)). lia. Defined.

(** X17. The text of [TaskStatus::toString] starts with the name
    [toString(TaskState)] gives the state of the status, followed by a
    blank and an opening parenthesis; and the value [runStatus.orDefault()]
    yields for an absent run status never reaches the text. *)
Theorem TaskStatus_toString_state (orDefault orDefault' : TaskRunStatus)
    (self : TaskStatus) (nowTime : Z) :
  (∃ rest, TaskStatus_toString orDefault self nowTime
           = TaskState_toString (getState self) +:+ " (" +:+ rest)
  ∧ TaskStatus_toString orDefault self nowTime
    = TaskStatus_toString orDefault' self nowTime.
Proof.
  unfold TaskStatus_toString, getState.
  destruct (runStatus self) as [rs|]; [destruct (wasCanceled rs)|];
    (split; [eexists; simpl; reflexivity|done]).
Qed.

(** X18. [parseConnectionString] returns an address exactly when the
    string splits at the colons into one or two parts, and then without an
    error message: the address has the first part as [ip] and as [port] the
    number read from the second part, or the default port when there is no
    second part.  More than two parts end the process with code -1; no part
    at all prints an error and goes on to read [parts[0]] of an empty
    vector. *)
Theorem parseConnectionString_outcome (splitString : string → string → list string)
    (parseInt : string → Z) (connectionStr : string) (defaultPort : Z) :
  let parts := splitString connectionStr ":" in
  let outcome := parseConnectionString splitString parseInt connectionStr defaultPort in
  (∀ addr errors, outcome = ParseReturned addr errors →
     errors = 0%nat ∧ head parts = Some (ip addr)
     ∧ (1 ≤ length parts ≤ 2)%nat
     ∧ port addr = from_option parseInt defaultPort (parts !! 1%nat))
  ∧ ((1 ≤ length parts ≤ 2)%nat → ∃ addr, outcome = ParseReturned addr 0)
  ∧ ((2 < length parts)%nat → outcome = ParseExited (-1) 1)
  ∧ (parts = [] → outcome = ParseOutOfBounds 1).
Proof.
  simpl. unfold parseConnectionString.
  destruct (splitString connectionStr ":") as [|part0 [|part1 [|part2 rest]]]; simpl.
  - split_and!; try done; lia.
  - split_and!; try done; try lia.
    + intros addr errors [= <- <-]. simpl. split_and!; try done; lia.
    + intros _. by eexists.
  - split_and!; try done; try lia.
    + intros addr errors [= <- <-]. simpl. split_and!; try done; lia.
    + intros _. by eexists.
  - split_and!; try done; lia.
Qed.

Lemma parseConnectionString_outcome_witness :
  ∃ addr,
    parseConnectionString (λ _ _, ["localhost"; "3355"]%string) (λ _, 3355)
      "localhost:3355" 3355
    = ParseReturned addr 0.
Proof.
  apply (parseConnectionString_outcome (λ _ _, ["localhost"; "3355"]%string)
           (λ _, 3355) "localhost:3355" 3355).
  simpl. lia.
Defined.

(** X19. Control-C on a worker: as long as the process has not exited,
    the first interrupt with the worker registered shuts the worker down
    and does not end the process, the next one ends it with code -2, and
    [TaskWorker::shutdown] is never called a second time. *)
Theorem interruptHandler_second_terminates (n : nat) (s : Process) :
  exitCode s = None →
  let s' := interrupts n s in
  shutdownCalls s'
  = (shutdownCalls s
     + (if gWorkerForInterruptHandler s && (1 <=? n)%nat then 1 else 0))%nat
  ∧ exitCode s'
    = (if ((if gWorkerForInterruptHandler s then 2 else 1) <=? n)%nat
       then Some (-2) else None).
Proof.
  simpl. intros Hex. destruct s as [g k e]. simpl in Hex. subst e.
  assert (∀ m s0 c, exitCode s0 = Some c → interrupts m s0 = s0) as Hdone.
  { intros m s0 c Hc. destruct m; simpl; [done|]. by rewrite Hc. }
  destruct n as [|n]; simpl.
  - destruct g; simpl; split; (lia || done).
  - destruct g; simpl.
    + destruct n as [|n]; simpl; [split; (lia || done)|].
      rewrite (Hdone n _ (-2)) by done. simpl. split; (lia || done).
    + rewrite (Hdone n _ (-2)) by done. simpl. split; (lia || done).
Qed.

Lemma interruptHandler_second_terminates_witness :
  shutdownCalls (interrupts 3 worker_started) = 1%nat
  ∧ exitCode (interrupts 3 worker_started) = Some (-2).
Proof. apply (interruptHandler_second_terminates 3 worker_started). reflexivity. Defined.

(* ================================================================== *)
(** * Readers and truncated input *)
(* ================================================================== *)

Section Prefix.

Lemma reads_prefix_ret {A} (v : A) : reads_prefix (λ reader, Some (v, reader)).
Proof. intros reader v' rest [= <- <-]. by exists []. Qed.

Lemma reads_prefix_bind {A B} (read1 : Blob → option (A * Blob))
    (read2 : A → Blob → option (B * Blob)) :
  reads_prefix read1 → (∀ a, reads_prefix (read2 a)) →
  reads_prefix (λ reader, '(a, reader) ← read1 reader; read2 a reader).
Proof.
  intros H1 H2 reader v rest. simpl.
  destruct (read1 reader) as [[a reader1]|] eqn:E1; simpl; [|done].
  intros E2.
  destruct (H1 reader a reader1 E1) as (used1 & -> & Hmore1).
  destruct (H2 a reader1 v rest E2) as (used2 & -> & Hmore2).
  exists (used1 ++ used2). split; [by rewrite app_assoc|].
  intros more. rewrite <- app_assoc, Hmore1. simpl. apply Hmore2.
Qed.

Lemma read_bytes_prefix n : reads_prefix (read_bytes n).
Proof.
  intros reader v rest. unfold read_bytes.
  destruct (n <=? length reader)%nat eqn:E; [|done]. intros [= <- <-].
  apply Nat.leb_le in E.
  exists (take n reader). split; [by rewrite take_drop|].
  intros more. rewrite (proj2 (Nat.leb_le _ _)) by (rewrite length_app, length_take; lia).
  rewrite take_app_length', drop_app_length'; try done; rewrite length_take; lia.
Qed.

Lemma read_uint64_prefix : reads_prefix read_uint64.
Proof.
  apply (reads_prefix_bind (read_bytes 8) (λ bs reader, Some (le_value bs, reader)));
    [apply read_bytes_prefix|]. intros bs. apply reads_prefix_ret.
Qed.

Lemma read_uint32_prefix : reads_prefix read_uint32.
Proof.
  apply (reads_prefix_bind (read_bytes 4) (λ bs reader, Some (le_value bs, reader)));
    [apply read_bytes_prefix|]. intros bs. apply reads_prefix_ret.
Qed.

Lemma read_time_prefix : reads_prefix read_time.
Proof.
  apply (reads_prefix_bind (read_bytes 8)
           (λ bs reader,
              Some (if le_value bs <? 2 ^ 63 then le_value bs else le_value bs - 2 ^ 64,
                    reader)));
    [apply read_bytes_prefix|]. intros bs. apply reads_prefix_ret.
Qed.

Lemma read_bool_prefix : reads_prefix read_bool.
Proof.
  apply (reads_prefix_bind (read_bytes 1)
           (λ bs reader, Some (negb (le_value bs =? 0), reader)));
    [apply read_bytes_prefix|]. intros bs. apply reads_prefix_ret.
Qed.

Lemma read_string_prefix : reads_prefix read_string.
Proof.
  apply (reads_prefix_bind read_uint32
           (λ len reader,
              '(bs, reader) ← read_bytes (Z.to_nat len) reader;
              Some (String.string_of_list_byte bs, reader)));
    [apply read_uint32_prefix|]. intros len.
  apply (reads_prefix_bind (read_bytes (Z.to_nat len))
           (λ bs reader, Some (String.string_of_list_byte bs, reader)));
    [apply read_bytes_prefix|]. intros bs. apply reads_prefix_ret.
Qed.

Lemma read_resources_prefix count : reads_prefix (read_resources count).
Proof.
  induction count as [|count IH].
  - apply (reads_prefix_ret (A := list string) []).
  - apply (reads_prefix_bind read_string
             (λ resource reader,
                '(resources, reader) ← read_resources count reader;
                Some (resource :: resources, reader)));
      [apply read_string_prefix|]. intros resource.
    apply (reads_prefix_bind (read_resources count)
             (λ resources reader, Some (resource :: resources, reader)));
      [apply IH|]. intros resources. apply reads_prefix_ret.
Qed.

Lemma TaskSchedule_deserialize_prefix self : reads_prefix (TaskSchedule_deserialize self).
Proof.
  apply (reads_prefix_bind read_uint64
           (λ count reader,
              '(required, reader) ← read_resources (Z.to_nat count) reader;
              '(count, reader) ← read_uint64 reader;
              '(optional, reader) ← read_resources (Z.to_nat count) reader;
              Some (mkTaskSchedule required optional (workerUsage_FixedPoint self), reader)));
    [apply read_uint64_prefix|]. intros count.
  apply (reads_prefix_bind (read_resources (Z.to_nat count))
           (λ required reader,
              '(count, reader) ← read_uint64 reader;
              '(optional, reader) ← read_resources (Z.to_nat count) reader;
              Some (mkTaskSchedule required optional (workerUsage_FixedPoint self), reader)));
    [apply read_resources_prefix|]. intros required.
  apply (reads_prefix_bind read_uint64
           (λ count reader,
              '(optional, reader) ← read_resources (Z.to_nat count) reader;
              Some (mkTaskSchedule required optional (workerUsage_FixedPoint self), reader)));
    [apply read_uint64_prefix|]. intros count'.
  apply (reads_prefix_bind (read_resources (Z.to_nat count'))
           (λ optional reader,
              Some (mkTaskSchedule required optional (workerUsage_FixedPoint self), reader)));
    [apply read_resources_prefix|]. intros optional. apply reads_prefix_ret.
Qed.

Lemma TaskCreateInfo_deserialize_prefix self :
  reads_prefix (TaskCreateInfo_deserialize self).
Proof.
  apply (reads_prefix_bind read_string
           (λ command reader,
              '(schedule, reader) ← TaskSchedule_deserialize (schedule self) reader;
              Some (mkTaskCreateInfo command schedule, reader)));
    [apply read_string_prefix|]. intros command.
  apply (reads_prefix_bind (TaskSchedule_deserialize (schedule self))
           (λ schedule reader, Some (mkTaskCreateInfo command schedule, reader)));
    [apply TaskSchedule_deserialize_prefix|]. intros schedule. apply reads_prefix_ret.
Qed.

Lemma TaskRunStatus_deserialize_prefix : reads_prefix TaskRunStatus_deserialize.
Proof.
  apply (reads_prefix_bind read_bool
           (λ wasCanceled reader,
              '(startTime, reader) ← read_time reader;
              '(heartbeatTime, reader) ← read_time reader;
              Some (mkTaskRunStatus wasCanceled startTime heartbeatTime, reader)));
    [apply read_bool_prefix|]. intros wasCanceled.
  apply (reads_prefix_bind read_time
           (λ startTime reader,
              '(heartbeatTime, reader) ← read_time reader;
              Some (mkTaskRunStatus wasCanceled startTime heartbeatTime, reader)));
    [apply read_time_prefix|]. intros startTime.
  apply (reads_prefix_bind read_time
           (λ heartbeatTime reader,
              Some (mkTaskRunStatus wasCanceled startTime heartbeatTime, reader)));
    [apply read_time_prefix|]. intros heartbeatTime. apply reads_prefix_ret.
Qed.

Lemma TaskStatus_deserialize_prefix : reads_prefix TaskStatus_deserialize.
Proof.
  apply (reads_prefix_bind read_time
           (λ createTime reader,
              '(hasRunStatus, reader) ← read_bool reader;
              if hasRunStatus : bool then
                '(runStatusVal, reader) ← TaskRunStatus_deserialize reader;
                Some (mkTaskStatus createTime (Some runStatusVal), reader)
              else Some (mkTaskStatus createTime None, reader)));
    [apply read_time_prefix|]. intros createTime.
  apply (reads_prefix_bind read_bool
           (λ (hasRunStatus : bool) reader,
              if hasRunStatus then
                '(runStatusVal, reader) ← TaskRunStatus_deserialize reader;
                Some (mkTaskStatus createTime (Some runStatusVal), reader)
              else Some (mkTaskStatus createTime None, reader)));
    [apply read_bool_prefix|]. intros [|].
  - apply (reads_prefix_bind TaskRunStatus_deserialize
             (λ runStatusVal reader,
                Some (mkTaskStatus createTime (Some runStatusVal), reader)));
      [apply TaskRunStatus_deserialize_prefix|]. intros rs. apply reads_prefix_ret.
  - apply reads_prefix_ret.
Qed.

(** A reader of this kind that reads back a whole encoding rejects every
    shorter piece of it. *)
Lemma reads_prefix_truncated {A} (read : Blob → option (A * Blob))
    (encoding : Blob) (v : A) (k : nat) :
  reads_prefix read → read encoding = Some (v, []) →
  (k < length encoding)%nat → read (take k encoding) = None.
Proof.
  intros Hpre Hall Hk.
  destruct (read (take k encoding)) as [[v' rest]|] eqn:E; [|done].
  destruct (Hpre _ _ _ E) as (used & Hused & Hmore).
  specialize (Hmore (rest ++ drop k encoding)).
  rewrite app_assoc, <- Hused, take_drop, Hall in Hmore.
  injection Hmore as _ Hnil. symmetry in Hnil.
  apply app_eq_nil in Hnil as [_ Hdrop].
  apply (f_equal length) in Hdrop. rewrite length_drop in Hdrop. simpl in Hdrop. lia.
Qed.

End Prefix.

(** X20. A deserializer that succeeds has read a prefix of its input and
    left the rest to the reader, and its result does not depend on what
    follows that prefix: values written one after the other are read back
    one after the other. *)
Theorem deserialize_reads_prefix :
  (∀ self, reads_prefix (TaskSchedule_deserialize self))
  ∧ (∀ self, reads_prefix (TaskCreateInfo_deserialize self))
  ∧ reads_prefix TaskRunStatus_deserialize
  ∧ reads_prefix TaskStatus_deserialize.
Proof.
  split_and!.
  - apply TaskSchedule_deserialize_prefix.
  - apply TaskCreateInfo_deserialize_prefix.
  - apply TaskRunStatus_deserialize_prefix.
  - apply TaskStatus_deserialize_prefix.
Qed.

(** X21. No deserializer accepts a truncated encoding: on the first [k]
    bytes of what [serialize] wrote, for any [k] below the length,
    [deserialize] returns false. *)
Theorem deserialize_rejects_truncated (k : nat) :
  (∀ (s target : TaskSchedule),
     schedule_fits s → (k < length (TaskSchedule_serialize s []))%nat →
     TaskSchedule_deserialize target (take k (TaskSchedule_serialize s [])) = None)
  ∧ (∀ (info target : TaskCreateInfo),
       string_fits (command info) → schedule_fits (schedule info) →
       (k < length (TaskCreateInfo_serialize info []))%nat →
       TaskCreateInfo_deserialize target (take k (TaskCreateInfo_serialize info [])) = None)
  ∧ (∀ (rs : TaskRunStatus),
       time_fits (startTime rs) → time_fits (heartbeatTime rs) →
       (k < length (TaskRunStatus_serialize rs []))%nat →
       TaskRunStatus_deserialize (take k (TaskRunStatus_serialize rs [])) = None)
  ∧ (∀ (st : TaskStatus),
       status_fits st → (k < length (TaskStatus_serialize st []))%nat →
       TaskStatus_deserialize (take k (TaskStatus_serialize st [])) = None).
Proof.
  split_and!.
  - intros s target Hs Hk.
    eapply reads_prefix_truncated; [apply TaskSchedule_deserialize_prefix| |done].
    pose proof (TaskSchedule_round_trip s target [] Hs) as H.
    rewrite app_nil_r in H. exact H.
  - intros info target Hc Hs Hk.
    eapply reads_prefix_truncated; [apply TaskCreateInfo_deserialize_prefix| |done].
    pose proof (TaskCreateInfo_round_trip info target [] Hc Hs) as H.
    rewrite app_nil_r in H. exact H.
  - intros rs Hs Hh Hk.
    eapply reads_prefix_truncated; [apply TaskRunStatus_deserialize_prefix| |done].
    pose proof (TaskRunStatus_round_trip rs [] Hs Hh) as H.
    rewrite app_nil_r in H. exact H.
  - intros st Hs Hk.
    eapply reads_prefix_truncated; [apply TaskStatus_deserialize_prefix| |done].
    pose proof (TaskStatus_round_trip st [] Hs) as H.
    rewrite app_nil_r in H. exact H.
Qed.

Lemma deserialize_rejects_truncated_witness :
  TaskSchedule_deserialize emptySchedule (take 30 (TaskSchedule_serialize schedule1 [])) = None
  ∧ TaskStatus_deserialize (take 25 (TaskStatus_serialize status1 [])) = None.
Proof.
  destruct (deserialize_rejects_truncated 30) as (Hs & _).
  destruct (deserialize_rejects_truncated 25) as (_ & _ & _ & Hst). split.
  - apply Hs.
    + unfold schedule_fits, resources_fit. split_and!.
      * vm_compute. reflexivity.
      * repeat (apply Forall_cons; split; [vm_compute; reflexivity|]). by apply Forall_nil.
      * vm_compute. reflexivity.
      * repeat (apply Forall_cons; split; [vm_compute; reflexivity|]). by apply Forall_nil.
    + vm_compute. lia.
  - apply Hst.
    + unfold status_fits, time_fits.
      cbn [createTime runStatus status1 startTime heartbeatTime]. lia.
    + vm_compute. lia.
Defined.
